(** * pysynphot.tables: graph and component tables

    A shallow embedding of [src/pysynphot/tables.py] and the properties of
    [GraphTable.GetComponentsFromGT] and [CompTable.__init__].

    Conventions of the embedding.
    - The columns read from EXT 1 of a FITS table are parallel arrays of one
      table, so row [i] is the record of the i-th entries of every column;
      a table is the list of its rows, in table order.
    - [N.where(col == v)] selects rows in table order: it is [filter].
    - The string columns are numpy character arrays: comparing one with a
      string, by [==] or by [in], ignores white space and NULs at the end
      of both; [matches] is that comparison. A row holds its strings as
      element access returns them.
    - Python sets of keywords are [gset string]; the dictionary [compdict]
      is a [gmap string string].
    - The [while] loop of [GetComponentsFromGT] is a fuelled iteration of
      its body; running out of fuel is [None], never a result.
    - The flag [DEBUG] is [False]: the logging calls, and the variable
      [used_default] that only they read, are left out. *)

From Stdlib Require Import ZArith Ascii String Lia.
From stdpp Require Import base strings gmap list.

Local Open Scope string_scope.
Local Open Scope list_scope.
Set Warnings "-clear-no-such-hyp".

(** ** Data *)

(** One row of the graph table (columns KEYWORD, INNODE, OUTNODE, COMPNAME,
    THCOMPNAME). *)
Record Row : Type := mkRow {
  r_keyword : string;
  r_innode : Z;
  r_outnode : Z;
  r_compname : string;
  r_thcompname : string
}.

(** One row of the component table (columns COMPNAME, FILENAME). *)
Record CompRow : Type := mkCompRow {
  c_compname : string;
  c_filename : string
}.

(** The exceptions the module can raise. [KeyError] is the one of line 231
    ('%d matches found for %s'), [ValueError_incomplete] the one of line 258
    ('Incomplete obsmode %s'), [ValueError_unused] the one of line 264
    ('Warning: unused keywords %s'); [IndexError] is what [index[0][0]] raises
    on an empty selection. [TypeError] is the constructors' answer to a
    missing file name. *)
Inductive error : Type :=
  | KeyError (n : nat) (mode : string)
  | ValueError_incomplete (modes : list string)
  | ValueError_unused (unused : gset string)
  | IndexError
  | TypeError.

(** ** Comparison of a character array with a string

    [numpy.char.equal], which the arrays of keywords use for [==] and for
    [in], compares after removing from the end of both strings every NUL
    and every ASCII white space character. *)

Definition is_blank (c : ascii) : bool :=
  let n := nat_of_ascii c in
  (n =? 0)%nat || (n =? 32)%nat || ((9 <=? n)%nat && (n <=? 13)%nat).

Fixpoint rstrip (s : string) : string :=
  match s with
  | EmptyString => EmptyString
  | String c s' =>
      match rstrip s' with
      | EmptyString => if is_blank c then EmptyString else String c EmptyString
      | r => String c r
      end
  end.

(** [kw == mode] for an element [kw] of a character array. *)
Definition matches (kw mode : string) : Prop := rstrip kw = rstrip mode.

#[global] Instance matches_dec kw mode : Decision (matches kw mode).
Proof. unfold matches. apply _. Defined.

(** ** str.lower, on ASCII *)

Definition lower_ascii (c : ascii) : ascii :=
  let n := nat_of_ascii c in
  if (65 <=? n)%nat && (n <=? 90)%nat then ascii_of_nat (n + 32) else c.

Fixpoint lower (s : string) : string :=
  match s with
  | EmptyString => EmptyString
  | String c s' => String (lower_ascii c) (lower s')
  end.

(** ** GraphTable.__init__

    [GFile] is the file name ([None] when missing) and [ext1] the rows that
    [pyfits.open] finds in it; the keywords are forced to lower case. *)
Definition lower_row (r : Row) : Row :=
  mkRow (lower (r_keyword r)) (r_innode r) (r_outnode r)
        (r_compname r) (r_thcompname r).

Definition GraphTable_rows (ext1 : list Row) : list Row := lower_row <$> ext1.

Definition GraphTable_init (GFile : option string) (ext1 : list Row)
  : error + list Row :=
  match GFile with
  | None => inl TypeError
  | Some _ => inr (GraphTable_rows ext1)
  end.

(** Two rows that differ at most in the letter case of the keyword. *)
Definition same_up_to_case (r r' : Row) : Prop :=
  lower (r_keyword r) = lower (r_keyword r')
  ∧ r_innode r = r_innode r' ∧ r_outnode r = r_outnode r'
  ∧ r_compname r = r_compname r' ∧ r_thcompname r = r_thcompname r'.

(** ** GraphTable.GetComponentsFromGT *)

(** The local variables of the function that live across iterations. *)
Record state : Type := mkState {
  innode : Z;
  outnode : Z;
  count : nat;
  used_modes : gset string;
  components : list (option string);
  thcomponents : list (option string)
}.

(** The triple [outnode], [component], [thcomponent] chosen within one
    iteration; a component is [None] when nothing was chosen. *)
Record selection : Type := mkSel {
  sel_outnode : Z;
  sel_component : option string;
  sel_thcomponent : option string
}.

Definition of_row (r : Row) : selection :=
  mkSel (r_outnode r) (Some (r_compname r)) (Some (r_thcompname r)).

(** [nodes = N.where(self.innodes == innode)]: the rows leaving [n]. *)
Definition nodes_of (t : list Row) (n : Z) : list Row :=
  filter (λ r, r_innode r = n) t.

(** [mode in self.keywords[nodes]]. *)
Definition in_keywords (nodes : list Row) (mode : string) : Prop :=
  Exists (λ r, matches (r_keyword r) mode) nodes.

#[global] Instance in_keywords_dec nodes mode :
  Decision (in_keywords nodes mode).
Proof. unfold in_keywords. apply _. Defined.

(** [N.where(self.keywords[nodes] == kw)]. *)
Definition where_keyword (nodes : list Row) (kw : string) : list Row :=
  filter (λ r, matches (r_keyword r) kw) nodes.

(** Lines 212-222: the first 'default' row if there is one, else the
    sentinel [-2] and no component. *)
Definition provisional (nodes : list Row) : selection :=
  if decide (in_keywords nodes "default") then
    match where_keyword nodes "default" with
    | dfi :: _ => of_row dfi
    | [] => mkSel (-2) None None
    end
  else mkSel (-2) None None.

(** Lines 225-236: the loop over [modes]. *)
Fixpoint match_modes (nodes : list Row) (modes : list string)
    (sel : selection) (used : gset string)
  : error + (selection * gset string) :=
  match modes with
  | [] => inr (sel, used)
  | mode :: rest =>
      if decide (in_keywords nodes mode) then
        let index := where_keyword nodes mode in
        if decide (1 < length index)%nat then
          inl (KeyError (length index) mode)
        else
          match index with
          | idx :: _ => match_modes nodes rest (of_row idx) (used ∪ {[mode]})
          | [] => inl IndexError
          end
      else match_modes nodes rest sel used
  end.

(** How the [while] loop was left: the [break] of line 205 (no entry with
    this innode), the [break] of line 253 (same outnode more than 3 times),
    or its condition [outnode >= 0] turning false. The tag is bookkeeping of
    the embedding; the function itself does not keep it. *)
Inductive stop : Type :=
  | NoSuchInnode
  | SameOutnode
  | NegativeOutnode.

(** What one execution of the loop body does. *)
Inductive outcome : Type :=
  | Continue (s : state)
  | Break (why : stop) (s : state)
  | Raise (e : error).

(** Lines 225-236 run on the provisional choice of lines 212-222. *)
Definition select (t : list Row) (modes : list string) (s : state)
  : error + (selection * gset string) :=
  let nodes := nodes_of t (innode s) in
  match_modes nodes modes (provisional nodes) (used_modes s).

(** Lines 240-253: append, advance, and the guard on repeated outnodes.
    [outnode s] still holds [previous_outnode]. *)
Definition advance (s : state) (sel : selection) (used : gset string)
  : outcome :=
  let previous_outnode := outnode s in
  let s1 := mkState (sel_outnode sel) (sel_outnode sel) (count s) used
              (components s ++ [sel_component sel])
              (thcomponents s ++ [sel_thcomponent sel]) in
  if decide (sel_outnode sel = previous_outnode) then
    let s2 := mkState (innode s1) (outnode s1) (S (count s))
                (used_modes s1) (components s1) (thcomponents s1) in
    if decide (3 < S (count s))%nat then Break SameOutnode s2 else Continue s2
  else Continue s1.

(** Lines 196-253, with the loop condition already checked. *)
Definition body (t : list Row) (modes : list string) (s : state) : outcome :=
  if decide (length (nodes_of t (innode s)) = 0%nat) then Break NoSuchInnode s
  else
    match select t modes s with
    | inl e => Raise e
    | inr (sel, used) => advance s sel used
    end.

(** [while outnode >= 0: body]. *)
Fixpoint loop (fuel : nat) (t : list Row) (modes : list string) (s : state)
  : option (error + stop * state) :=
  match fuel with
  | O => None
  | S fuel' =>
      if decide (0 ≤ outnode s)%Z then
        match body t modes s with
        | Continue s' => loop fuel' t modes s'
        | Break why s' => Some (inr (why, s'))
        | Raise e => Some (inl e)
        end
      else Some (inr (NegativeOutnode, s))
  end.

(** Lines 186-191. *)
Definition initial (start : Z) : state :=
  mkState start 0 0 ∅ [] [].

Definition result : Type :=
  error + (list (option string) * list (option string)).

(** Lines 255-266. *)
Definition finish (modes : list string) (s : state) : result :=
  if decide (outnode s < 0)%Z then inl (ValueError_incomplete modes)
  else
    let inmodes : gset string := list_to_set modes in
    if decide (inmodes ≠ used_modes s) then
      inl (ValueError_unused (inmodes ∖ used_modes s))
    else inr (components s, thcomponents s).

Definition GetComponentsFromGT (fuel : nat) (t : list Row)
    (modes : list string) (start : Z) : option result :=
  match loop fuel t modes (initial start) with
  | None => None
  | Some (inl e) => Some (inl e)
  | Some (inr (_, s)) => Some (finish modes s)
  end.

(** The call returns or raises: some amount of fuel is enough. *)
Definition terminates (t : list Row) (modes : list string) (start : Z)
  : Prop :=
  ∃ fuel r, GetComponentsFromGT fuel t modes start = Some r.

(** The state at the head of the loop after [n] iterations that ran to
    their end without leaving the loop. *)
Fixpoint iterate (n : nat) (t : list Row) (modes : list string) (s : state)
  : option state :=
  match n with
  | O => Some s
  | S n' =>
      if decide (0 ≤ outnode s)%Z then
        match body t modes s with
        | Continue s' => iterate n' t modes s'
        | _ => None
        end
      else None
  end.

(** The states at the end of the successive iterations that reached line
    244, in order, the one that left through line 253 included. *)
Fixpoint visited (fuel : nat) (t : list Row) (modes : list string)
    (s : state) : list state :=
  match fuel with
  | O => []
  | S fuel' =>
      if decide (0 ≤ outnode s)%Z then
        match body t modes s with
        | Continue s' => s' :: visited fuel' t modes s'
        | Break SameOutnode s' => [s']
        | _ => []
        end
      else []
  end.

(** The number of steps, in a sequence of outnodes that follows [prev],
    whose outnode equals that of the step before. *)
Fixpoint stall_steps (prev : Z) (os : list Z) : nat :=
  match os with
  | [] => 0
  | o :: os' => (if decide (o = prev) then 1 else 0) + stall_steps o os'
  end.

(** ** CompTable.__init__ *)

(** The dictionary that lines 49-51 build. *)
Definition compdict_of (ext1 : list CompRow) : gmap string string :=
  foldl (λ d r, <[c_compname r := c_filename r]> d) ∅ ext1.

Record CompTable : Type := mkCompTable {
  ct_compnames : list string;
  ct_filenames : list string;
  ct_name : string
}.

Definition CompTable_init (CFile : option string) (ext1 : list CompRow)
  : error + CompTable :=
  match CFile with
  | None => inl TypeError
  | Some f => inr (mkCompTable (c_compname <$> ext1) (c_filename <$> ext1) f)
  end.

Inductive lookup_error : Type := NotFoundError.

(** Modelled from the spec: the lookup operation [filename_for] of the
    component directory, which [tables.py] does not define (it builds the
    name to file name dictionary and keeps the two columns). It looks the
    name up in that dictionary and fails with [NotFoundError] on an unknown
    name. *)
Definition filename_for (ext1 : list CompRow) (component_name : string)
  : lookup_error + string :=
  match compdict_of ext1 !! component_name with
  | Some f => inr f
  | None => inl NotFoundError
  end.

(** ** Tables used in the examples *)

(** The four edges of the scenario; it leaves the thermal names open, and
    [last] is the outnode of its two final edges ([-1] there). *)
Definition four_edges_th (thA thB thC thD : string) (last : Z) : list Row :=
  [ mkRow "default" 1 2 "A" thA;
    mkRow "acs" 1 3 "B" thB;
    mkRow "default" 2 last "C" thC;
    mkRow "default" 3 last "D" thD ].

Definition four_edges (last : Z) : list Row :=
  four_edges_th "a" "b" "c" "d" last.

(** The same four edges as a file might spell them, in mixed case. *)
Definition four_edges_mixed : list Row :=
  [ mkRow "DEFAULT" 1 2 "A" "a";
    mkRow "ACS" 1 3 "B" "b";
    mkRow "Default" 2 4 "C" "c";
    mkRow "default" 3 4 "D" "d" ].

(** A default edge and two keyword edges out of node 1. *)
Definition three_way : list Row :=
  [ mkRow "default" 1 2 "A" "a";
    mkRow "acs" 1 3 "B" "b";
    mkRow "wfc1" 1 4 "C" "c" ].

(** Two edges out of node 1 with the same keyword. *)
Definition two_acs : list Row :=
  [ mkRow "default" 1 2 "A" "a";
    mkRow "acs" 1 3 "B" "b";
    mkRow "acs" 1 4 "C" "c" ].

(** Two default edges out of node 1. *)
Definition two_defaults : list Row :=
  [ mkRow "default" 1 2 "A" "a";
    mkRow "default" 1 3 "B" "b" ].

(** A node, 2, that is entered and has an edge, but no default one. *)
Definition no_default : list Row :=
  [ mkRow "default" 1 2 "A" "a";
    mkRow "acs" 2 3 "B" "b" ].

(** Two default edges that point at each other. *)
Definition two_cycle : list Row :=
  [ mkRow "default" 1 2 "A" "a";
    mkRow "default" 2 1 "B" "b" ].

(** A first step onto node 0, a step forward, then a self-loop. *)
Definition stall_then_progress : list Row :=
  [ mkRow "default" 7 0 "A" "a";
    mkRow "default" 0 5 "B" "b";
    mkRow "default" 5 5 "C" "c" ].

(** ** Paths of the graph

    What a traversal has done so far is stated against the rows it took:
    a chain of edges of the table, each one a default edge or an edge whose
    keyword a token of [modes] matches. *)

Definition keeps (modes : list string) (r : Row) : Prop :=
  matches (r_keyword r) "default"
  ∨ Exists (λ m, matches (r_keyword r) m) modes.

(** [rows] leads from node [n] to node [m] along edges of [t]. *)
Fixpoint chain (t : list Row) (modes : list string) (n : Z)
    (rows : list Row) (m : Z) : Prop :=
  match rows with
  | [] => n = m
  | r :: rest =>
      r ∈ t ∧ r_innode r = n ∧ keeps modes r
      ∧ chain t modes (r_outnode r) rest m
  end.

(** The tokens of [modes] that match the keyword of some edge leaving the
    innode of one of [rows]. *)
Definition matched_along (t : list Row) (modes : list string)
    (rows : list Row) : gset string :=
  list_to_set
    (filter (λ m, Exists (λ r, in_keywords (nodes_of t (r_innode r)) m)
                    rows) modes).

(** The outnode of the last of [rows], 0 when there is none. *)
Definition last_outnode (rows : list Row) : Z :=
  default 0%Z (last (r_outnode <$> rows)).

(** The state [s] is what taking [rows] from [start] leaves behind. *)
Definition follows (t : list Row) (modes : list string) (start : Z)
    (rows : list Row) (s : state) : Prop :=
  chain t modes start rows (innode s)
  ∧ Forall (λ r, (0 ≤ r_outnode r)%Z) rows
  ∧ components s = (λ r, Some (r_compname r)) <$> rows
  ∧ thcomponents s = (λ r, Some (r_thcompname r)) <$> rows
  ∧ used_modes s = matched_along t modes rows
  ∧ outnode s = last_outnode rows
  ∧ count s = stall_steps 0 (r_outnode <$> rows).

(** At every node, at most one token of [modes] matches the keyword of an
    edge that leaves it. *)
Definition one_token_per_node (t : list Row) (modes : list string) : Prop :=
  ∀ n m1 m2,
    m1 ∈ modes → m2 ∈ modes →
    in_keywords (nodes_of t n) m1 → in_keywords (nodes_of t n) m2 →
    m1 = m2.

(** The result with the list carried by the 'Incomplete obsmode' error
    replaced by [modes']. *)
Definition with_modes (modes' : list string) (r : option result)
  : option result :=
  match r with
  | Some (inl (ValueError_incomplete _)) =>
      Some (inl (ValueError_incomplete modes'))
  | _ => r
  end.

(** An upper-case ASCII letter. *)
Definition is_upper (c : ascii) : Prop :=
  (65 ≤ nat_of_ascii c ≤ 90)%nat.

(** A default self-loop behind one edge. *)
Definition self_loop : list Row :=
  [ mkRow "default" 1 2 "A" "a";
    mkRow "default" 2 2 "B" "b" ].

(** * Properties *)

(** A closed decidable statement, settled by evaluation. *)
Ltac by_evaluation :=
  apply (bool_decide_unpack _); vm_compute; exact I.

(** ** The comparison of keywords *)

Lemma rstrip_idem s : rstrip (rstrip s) = rstrip s.
Proof.
  induction s as [|c s IH]; [done|]. simpl.
  destruct (rstrip s) as [|c' r] eqn:E.
  - destruct (is_blank c) eqn:Eb; [done|]. simpl. by rewrite Eb.
  - remember (String c' r) as r' eqn:Er. cbn [rstrip]. rewrite IH.
    by subst r'.
Qed.

Lemma matches_rstrip kw mode :
  matches kw mode ↔ matches (rstrip kw) (rstrip mode).
Proof. unfold matches. by rewrite !rstrip_idem. Qed.

Example matches_examples :
  matches "acs" "acs  " ∧ matches "default " "default"
  ∧ ¬ matches "acs" " acs" ∧ ¬ matches "acs" "ACS" ∧ ¬ matches "acs" "ac".
Proof. by_evaluation. Qed.

(** ** The loop and its fuel *)

Lemma loop_fuel_mono fuel fuel' t modes s r :
  loop fuel t modes s = Some r → (fuel ≤ fuel')%nat →
  loop fuel' t modes s = Some r.
Proof.
  revert fuel' s. induction fuel as [|fuel IH]; intros fuel' s H Hle.
  - discriminate.
  - destruct fuel' as [|fuel']; [lia|]. simpl in *.
    case_decide; [|done].
    destruct (body t modes s); auto. apply IH; [done|lia].
Qed.

Lemma loop_fuel_agree fuel fuel' t modes s r r' :
  loop fuel t modes s = Some r → loop fuel' t modes s = Some r' → r = r'.
Proof.
  intros H H'. destruct (Nat.le_ge_cases fuel fuel') as [Hle|Hle].
  - rewrite (loop_fuel_mono _ _ _ _ _ _ H Hle) in H'. congruence.
  - rewrite (loop_fuel_mono _ _ _ _ _ _ H' Hle) in H. congruence.
Qed.

Lemma GetComponentsFromGT_fuel_mono fuel fuel' t modes start r :
  GetComponentsFromGT fuel t modes start = Some r → (fuel ≤ fuel')%nat →
  GetComponentsFromGT fuel' t modes start = Some r.
Proof.
  unfold GetComponentsFromGT. intros H Hle.
  destruct (loop fuel t modes (initial start)) as [x|] eqn:E; [|done].
  by rewrite (loop_fuel_mono _ _ _ _ _ _ E Hle).
Qed.

Lemma GetComponentsFromGT_fuel_agree fuel fuel' t modes start r r' :
  GetComponentsFromGT fuel t modes start = Some r →
  GetComponentsFromGT fuel' t modes start = Some r' → r = r'.
Proof.
  intros H H'. destruct (Nat.le_ge_cases fuel fuel') as [Hle|Hle].
  - rewrite (GetComponentsFromGT_fuel_mono _ _ _ _ _ _ H Hle) in H'. congruence.
  - rewrite (GetComponentsFromGT_fuel_mono _ _ _ _ _ _ H' Hle) in H. congruence.
Qed.

Lemma loop_negative fuel t modes s :
  (outnode s < 0)%Z → loop (S fuel) t modes s = Some (inr (NegativeOutnode, s)).
Proof. intros H. simpl. case_decide; [lia|done]. Qed.

(** ** The body of the loop *)

Lemma body_nodes t modes s nodes :
  nodes_of t (innode s) = nodes → nodes ≠ [] →
  body t modes s
  = match match_modes nodes modes (provisional nodes) (used_modes s) with
    | inl e => Raise e
    | inr (sel, used) => advance s sel used
    end.
Proof.
  intros Hn Hne. unfold body, select. rewrite Hn.
  case_decide as Hl; [|done]. by destruct nodes.
Qed.

Lemma body_no_entry t modes s :
  nodes_of t (innode s) = [] → body t modes s = Break NoSuchInnode s.
Proof. intros Hn. unfold body. rewrite Hn. by case_decide. Qed.

(** ** A cycle of two nodes *)

Lemma two_cycle_body_1 o c u cs ths :
  o ≠ 2%Z →
  body two_cycle [] (mkState 1 o c u cs ths)
  = Continue (mkState 2 2 c u (cs ++ [Some "A"]) (ths ++ [Some "a"])).
Proof.
  intros Ho.
  rewrite (body_nodes _ _ _ [mkRow "default" 1 2 "A" "a"]);
    [|by vm_compute|done].
  change (provisional _) with (mkSel 2 (Some "A") (Some "a")).
  unfold advance; simpl. case_decide; [congruence|done].
Qed.

Lemma two_cycle_body_2 o c u cs ths :
  o ≠ 1%Z →
  body two_cycle [] (mkState 2 o c u cs ths)
  = Continue (mkState 1 1 c u (cs ++ [Some "B"]) (ths ++ [Some "b"])).
Proof.
  intros Ho.
  rewrite (body_nodes _ _ _ [mkRow "default" 2 1 "B" "b"]);
    [|by vm_compute|done].
  change (provisional _) with (mkSel 1 (Some "B") (Some "b")).
  unfold advance; simpl. case_decide; [congruence|done].
Qed.

Lemma two_cycle_loop fuel s :
  ((innode s = 1 ∧ (outnode s = 0 ∨ outnode s = 1))
   ∨ (innode s = 2 ∧ outnode s = 2))%Z →
  loop fuel two_cycle [] s = None.
Proof.
  revert s. induction fuel as [|fuel IH]; intros s Hs; [done|].
  destruct s as [i o c u cs ths]; simpl in Hs. simpl loop.
  case_decide as Ho; simpl in Ho; [|lia].
  destruct Hs as [[-> Ho']|[-> ->]].
  - rewrite two_cycle_body_1 by lia. apply IH. simpl. lia.
  - rewrite two_cycle_body_2 by lia. apply IH. simpl. lia.
Qed.

(** C1, as stated, fails: on two default edges that point at each other
    the loop never leaves, so no amount of fuel yields a result. *)
Lemma two_cycle_never_terminates : ¬ terminates two_cycle [] 1.
Proof.
  intros (fuel & r & H). unfold GetComponentsFromGT in H.
  rewrite two_cycle_loop in H; [done|]. simpl. lia.
Qed.

(** ** Where a step can lead *)

Lemma where_keyword_elem nodes kw r :
  r ∈ where_keyword nodes kw ↔ matches (r_keyword r) kw ∧ r ∈ nodes.
Proof.
  unfold where_keyword.
  apply (list_elem_of_filter (λ r', matches (r_keyword r') kw) nodes r).
Qed.

Lemma where_keyword_head nodes kw idx rest :
  where_keyword nodes kw = idx :: rest →
  matches (r_keyword idx) kw ∧ idx ∈ nodes.
Proof. intros E. apply where_keyword_elem. rewrite E. by left. Qed.

Lemma provisional_cases nodes :
  provisional nodes = mkSel (-2) None None
  ∨ ∃ r, r ∈ nodes ∧ matches (r_keyword r) "default"
         ∧ provisional nodes = of_row r.
Proof.
  unfold provisional. case_decide; [|by left].
  destruct (where_keyword nodes "default") as [|dfi rest] eqn:E; [by left|].
  right. exists dfi. apply where_keyword_head in E. tauto.
Qed.

Lemma match_modes_cases nodes modes sel used sel' used' :
  match_modes nodes modes sel used = inr (sel', used') →
  sel' = sel ∨ ∃ r, r ∈ nodes ∧ sel' = of_row r.
Proof.
  revert sel used. induction modes as [|mode rest IH]; intros sel used H.
  - simpl in H. left. congruence.
  - simpl in H. case_decide; [|by apply IH in H].
    case_decide; [done|].
    destruct (where_keyword nodes mode) as [|idx tl] eqn:E; [done|].
    right. apply IH in H as [->|H]; [|done].
    exists idx. apply where_keyword_head in E. tauto.
Qed.

Lemma select_outnode t modes s sel used :
  select t modes s = inr (sel, used) →
  sel_outnode sel = (-2)%Z
  ∨ ∃ r, r ∈ t ∧ r_innode r = innode s ∧ sel_outnode sel = r_outnode r.
Proof.
  unfold select. intros H.
  assert (∀ r, r ∈ nodes_of t (innode s) → r ∈ t ∧ r_innode r = innode s)
    as Hin.
  { intros r Hr. unfold nodes_of in Hr.
    apply (list_elem_of_filter (λ r', r_innode r' = innode s)) in Hr.
    tauto. }
  apply match_modes_cases in H as [->|(r & Hr & ->)].
  - destruct (provisional_cases (nodes_of t (innode s)))
      as [->|(r & Hr & _ & ->)]; [by left|].
    right. exists r. destruct (Hin r Hr). done.
  - right. exists r. destruct (Hin r Hr). done.
Qed.

(** ** Termination on tables without cycles other than self-loops *)

Section Ranked.
Variable rank : Z → nat.
Variable t : list Row.
Variable modes : list string.
Hypothesis rank_decreases :
  Forall (λ r, (r_outnode r < 0)%Z ∨ r_outnode r = r_innode r
               ∨ (rank (r_outnode r) < rank (r_innode r))%nat) t.

Lemma ranked_edge r :
  r ∈ t →
  (r_outnode r < 0)%Z ∨ r_outnode r = r_innode r
  ∨ (rank (r_outnode r) < rank (r_innode r))%nat.
Proof. intros Hr. by apply (proj1 (Forall_forall _ _) rank_decreases). Qed.

(** After the first iteration [innode] and [outnode] agree, and a step
    that does not move is a stall. *)
Lemma loop_ranked_aligned fuel s :
  innode s = outnode s →
  (rank (innode s) + (4 - count s) + 2 ≤ fuel)%nat →
  ∃ r, loop fuel t modes s = Some r.
Proof.
  revert s. induction fuel as [|fuel IH]; intros s Hal Hfuel; [lia|].
  simpl. case_decide as Hout; [|eauto].
  unfold body. case_decide; [eauto|].
  destruct (select t modes s) as [e|[sel used]] eqn:Hsel; [eauto|].
  unfold advance. case_decide as Hstall.
  - case_decide; [eauto|]. apply IH; simpl; [done|].
    rewrite Hstall, <- Hal. lia.
  - destruct fuel as [|fuel]; [lia|].
    assert (sel_outnode sel < 0 → ∃ r,
      loop (S fuel) t modes
        (mkState (sel_outnode sel) (sel_outnode sel) (count s) used
           (components s ++ [sel_component sel])
           (thcomponents s ++ [sel_thcomponent sel])) = Some r)%Z as Hneg.
    { intros Hlt. rewrite loop_negative; [eauto|done]. }
    apply select_outnode in Hsel as [Hs|(r & Hr & Hin & Hs)];
      [apply Hneg; lia|].
    destruct (ranked_edge r Hr) as [?|[?|?]].
    + apply Hneg. lia.
    + congruence.
    + apply IH; simpl; [done|]. rewrite Hs. rewrite <- Hin in Hfuel. lia.
Qed.

Lemma loop_ranked fuel s :
  (rank (innode s) + (4 - count s) + 3 ≤ fuel)%nat →
  ∃ r, loop fuel t modes s = Some r.
Proof.
  intros Hfuel. destruct fuel as [|fuel]; [lia|].
  simpl. case_decide as Hout; [|eauto].
  unfold body. case_decide; [eauto|].
  destruct (select t modes s) as [e|[sel used]] eqn:Hsel; [eauto|].
  assert (∀ c, (count s ≤ c)%nat → ∃ r,
    loop fuel t modes
      (mkState (sel_outnode sel) (sel_outnode sel) c used
         (components s ++ [sel_component sel])
         (thcomponents s ++ [sel_thcomponent sel])) = Some r) as Hnext.
  { intros c Hc.
    apply select_outnode in Hsel as [Hs|(r & Hr & Hin & Hs)].
    - destruct fuel as [|fuel]; [lia|].
      rewrite loop_negative; [eauto|simpl; lia].
    - destruct (ranked_edge r Hr) as [?|[?|?]].
      + destruct fuel as [|fuel]; [lia|].
        rewrite loop_negative; [eauto|simpl; lia].
      + apply loop_ranked_aligned; simpl; [done|].
        rewrite Hs. replace (r_outnode r) with (innode s) by congruence.
        lia.
      + apply loop_ranked_aligned; simpl; [done|].
        rewrite Hs. rewrite <- Hin in Hfuel. lia. }
  unfold advance. case_decide; [|by apply Hnext].
  case_decide; [eauto|]. simpl. apply Hnext. lia.
Qed.
End Ranked.

(** C1, amended: the call terminates on every table that has a rank on
    its nodes which every edge decreases, edges to a negative outnode and
    self-loops aside; [rank start + 7] iterations are enough. *)
Theorem GetComponentsFromGT_terminates_ranked
    (rank : Z → nat) (t : list Row) (modes : list string) (start : Z) :
  Forall (λ r, (r_outnode r < 0)%Z ∨ r_outnode r = r_innode r
               ∨ (rank (r_outnode r) < rank (r_innode r))%nat) t →
  (∃ r, GetComponentsFromGT (rank start + 7) t modes start = Some r)
  ∧ terminates t modes start.
Proof.
  intros Hrank.
  assert (∃ r, GetComponentsFromGT (rank start + 7) t modes start = Some r)
    as Hr.
  { unfold GetComponentsFromGT.
    destruct (loop_ranked rank t modes Hrank (rank start + 7) (initial start))
      as [[e|[why s]] ->]; [simpl; lia|eauto..]. }
  split; [done|]. destruct Hr as [r Hr]. by exists (rank start + 7)%nat, r.
Qed.

Lemma GetComponentsFromGT_terminates_ranked_witness :
  Forall (λ r, (r_outnode r < 0)%Z ∨ r_outnode r = r_innode r
               ∨ (Z.to_nat (4 - r_outnode r) < Z.to_nat (4 - r_innode r))%nat)
    (four_edges 4)
  ∧ ((∃ r, GetComponentsFromGT (Z.to_nat (4 - 1) + 7) (four_edges 4)
             ["acs"] 1 = Some r)
     ∧ terminates (four_edges 4) ["acs"] 1).
Proof.
  assert (Forall (λ r, (r_outnode r < 0)%Z ∨ r_outnode r = r_innode r
               ∨ (Z.to_nat (4 - r_outnode r) < Z.to_nat (4 - r_innode r))%nat)
    (four_edges 4)) as H.
  { repeat (apply Forall_cons; split; [simpl; lia|]). constructor. }
  split; [exact H|].
  exact (GetComponentsFromGT_terminates_ranked (λ n, Z.to_nat (4 - n))
           (four_edges 4) ["acs"] 1 H).
Defined.

(** ** The scenario of four edges *)

Lemma four_edges_negative fuel thA thB thC thD :
  GetComponentsFromGT (3 + fuel) (four_edges_th thA thB thC thD (-1))
    ["acs"] 1 = Some (inl (ValueError_incomplete ["acs"]))
  ∧ GetComponentsFromGT (3 + fuel) (four_edges_th thA thB thC thD (-1))
      [] 1 = Some (inl (ValueError_incomplete [])).
Proof.
  split.
  - apply (GetComponentsFromGT_fuel_mono 3); [|lia]. vm_compute. reflexivity.
  - apply (GetComponentsFromGT_fuel_mono 3); [|lia]. vm_compute. reflexivity.
Qed.

(** C2, as stated, fails: the two final edges have outnode [-1], the loop
    leaves on it after appending "D", and line 258 raises. No amount of fuel
    makes the call return ["B"; "D"]. *)
Lemma four_edges_acs_raises :
  ¬ ∃ fuel th,
      GetComponentsFromGT fuel (four_edges (-1)) ["acs"] 1
      = Some (inr ([Some "B"; Some "D"], th)).
Proof.
  intros (fuel & th & H).
  destruct (four_edges_negative 0 "a" "b" "c" "d") as [H3 _].
  pose proof (GetComponentsFromGT_fuel_agree _ _ _ _ _ _ _ H H3) as E.
  discriminate E.
Qed.

(** C2, amended: with outnode [-1] on the two final edges, as written, both
    calls append their components and then raise the 'Incomplete obsmode'
    [ValueError]; with a final outnode that is not negative and has no entry
    (here 4) they return ["B"; "D"] and ["A"; "C"], whatever the thermal
    names. Three iterations are enough. *)
Theorem four_edges_resolved fuel thA thB thC thD :
  GetComponentsFromGT (3 + fuel) (four_edges_th thA thB thC thD 4) ["acs"] 1
  = Some (inr ([Some "B"; Some "D"], [Some thB; Some thD]))
  ∧ GetComponentsFromGT (3 + fuel) (four_edges_th thA thB thC thD 4) [] 1
    = Some (inr ([Some "A"; Some "C"], [Some thA; Some thC]))
  ∧ GetComponentsFromGT (3 + fuel) (four_edges_th thA thB thC thD (-1))
      ["acs"] 1 = Some (inl (ValueError_incomplete ["acs"]))
  ∧ GetComponentsFromGT (3 + fuel) (four_edges_th thA thB thC thD (-1))
      [] 1 = Some (inl (ValueError_incomplete [])).
Proof.
  split; [|split].
  - apply (GetComponentsFromGT_fuel_mono 3); [|lia]. vm_compute. reflexivity.
  - apply (GetComponentsFromGT_fuel_mono 3); [|lia]. vm_compute. reflexivity.
  - exact (four_edges_negative fuel thA thB thC thD).
Qed.

(** ** The keywords marked as used *)

Lemma match_modes_used nodes modes sel used sel' used' :
  match_modes nodes modes sel used = inr (sel', used') →
  used' = used ∪ list_to_set (filter (λ m, in_keywords nodes m) modes).
Proof.
  revert sel used. induction modes as [|mode rest IH]; intros sel used H.
  - simpl in H. injection H as _ <-. set_solver.
  - simpl in H. case_decide as Hin.
    + case_decide; [done|].
      destruct (where_keyword nodes mode) as [|idx tl]; [done|].
      apply IH in H. rewrite filter_cons_True by done. set_solver.
    + apply IH in H. by rewrite filter_cons_False.
Qed.

Lemma advance_fields s sel used :
  ∃ s', (advance s sel used = Continue s'
         ∨ advance s sel used = Break SameOutnode s')
    ∧ innode s' = sel_outnode sel ∧ outnode s' = sel_outnode sel
    ∧ used_modes s' = used
    ∧ components s' = components s ++ [sel_component sel]
    ∧ thcomponents s' = thcomponents s ++ [sel_thcomponent sel]
    ∧ count s' = (count s + if decide (sel_outnode sel = outnode s)
                            then 1 else 0)%nat.
Proof.
  unfold advance. case_decide.
  - case_decide; eexists; (split; [by (left + right)|]); simpl;
      split_and!; try done; lia.
  - eexists; (split; [by left|]); simpl; split_and!; try done; lia.
Qed.

Lemma body_used t modes s s' :
  (body t modes s = Continue s' ∨ ∃ why, body t modes s = Break why s') →
  used_modes s' ⊆ used_modes s ∪ list_to_set modes.
Proof.
  unfold body. case_decide.
  - intros [?|[why ?]]; [done|]. simplify_eq. set_solver.
  - destruct (select t modes s) as [e|[sel used]] eqn:Hsel.
    { intros [?|[? ?]]; done. }
    unfold select in Hsel. apply match_modes_used in Hsel.
    destruct (advance_fields s sel used) as (s1 & Hadv & _ & _ & Hu & _).
    assert (list_to_set (filter (λ m, in_keywords (nodes_of t (innode s)) m)
              modes) ⊆@{gset string} list_to_set modes) as Hsub.
    { intros m. rewrite !elem_of_list_to_set.
      rewrite (list_elem_of_filter
                 (λ m, in_keywords (nodes_of t (innode s)) m)). tauto. }
    intros Hb.
    assert (s' = s1) as ->.
    { destruct Hadv as [Ha|Ha], Hb as [Hb|[why Hb]]; congruence. }
    rewrite Hu, Hsel. set_solver.
Qed.

Lemma loop_used fuel t modes s why s' :
  loop fuel t modes s = Some (inr (why, s')) →
  used_modes s ⊆ list_to_set modes →
  used_modes s' ⊆ list_to_set modes.
Proof.
  revert s. induction fuel as [|fuel IH]; intros s H Hs; [done|].
  simpl in H. case_decide; [|by simplify_eq].
  destruct (body t modes s) as [s1|why1 s1|e] eqn:Hb; [| |done].
  - apply (IH s1 H). pose proof (body_used t modes s s1). set_solver.
  - simplify_eq. pose proof (body_used t modes s s'). set_solver.
Qed.

(** C3: when the loop is left in state [s], the call raises the 'Incomplete
    obsmode' error if the final outnode is negative; otherwise it raises
    the 'unused keywords' error carrying [modes] minus [used_modes] when
    that difference is not empty, and returns the two accumulated lists
    when it is. *)
Theorem unused_keywords_check fuel t modes start why s :
  loop fuel t modes (initial start) = Some (inr (why, s)) →
  GetComponentsFromGT fuel t modes start
  = Some (if decide (outnode s < 0)%Z then inl (ValueError_incomplete modes)
          else if decide (list_to_set modes ∖ used_modes s = ∅)
               then inr (components s, thcomponents s)
               else inl (ValueError_unused (list_to_set modes ∖ used_modes s))).
Proof.
  intros Hloop. unfold GetComponentsFromGT. rewrite Hloop. f_equal.
  unfold finish. case_decide; [done|].
  assert (used_modes s ⊆ list_to_set modes) as Hsub.
  { apply (loop_used _ _ _ _ _ _ Hloop). simpl. set_solver. }
  case_decide as Hne; case_decide as Hd; try done.
  - exfalso. apply Hne. apply set_eq. intros m. split; [|by apply Hsub].
    intros Hm. destruct (decide (m ∈ used_modes s)); [done|].
    assert (m ∈ list_to_set modes ∖ used_modes s) as Hx by set_solver.
    rewrite Hd in Hx. set_solver.
  - exfalso. apply Hd. rewrite Hne. set_solver.
Qed.

Lemma unused_keywords_check_witness :
  loop 3 (four_edges 4) ["acs"; "bogus"] (initial 1)
  = Some (inr (NoSuchInnode,
               mkState 4 4 0 {["acs"]} [Some "B"; Some "D"]
                 [Some "b"; Some "d"]))
  ∧ GetComponentsFromGT 3 (four_edges 4) ["acs"; "bogus"] 1
    = Some (inl (ValueError_unused {["bogus"]})).
Proof.
  assert (loop 3 (four_edges 4) ["acs"; "bogus"] (initial 1)
          = Some (inr (NoSuchInnode,
               mkState 4 4 0 {["acs"]} [Some "B"; Some "D"]
                 [Some "b"; Some "d"]))) as H.
  { vm_compute. reflexivity. }
  split; [exact H|].
  rewrite (unused_keywords_check 3 (four_edges 4) ["acs"; "bogus"] 1 _ _ H).
  vm_compute. reflexivity.
Defined.

(** ** One step: which edge is taken *)

Lemma keyword_in_nodes nodes kw :
  in_keywords nodes kw ↔ where_keyword nodes kw ≠ [].
Proof.
  unfold in_keywords. rewrite Exists_exists. split.
  - intros (r & Hr & Hm) E.
    assert (r ∈ where_keyword nodes kw) as Hin
      by (by apply where_keyword_elem).
    rewrite E in Hin. by apply not_elem_of_nil in Hin.
  - intros Hne. destruct (where_keyword nodes kw) as [|r tl] eqn:E; [done|].
    apply where_keyword_head in E as [Hm Hr]. by exists r.
Qed.

Lemma match_modes_app nodes l1 l2 sel used :
  match_modes nodes (l1 ++ l2) sel used
  = match match_modes nodes l1 sel used with
    | inl e => inl e
    | inr (sel', used') => match_modes nodes l2 sel' used'
    end.
Proof.
  revert sel used. induction l1 as [|mode rest IH]; intros sel used; [done|].
  simpl. case_decide; [|apply IH].
  case_decide; [done|]. destruct (where_keyword nodes mode); [done|apply IH].
Qed.

Lemma match_modes_no_match nodes modes sel used :
  Forall (λ m, ¬ in_keywords nodes m) modes →
  match_modes nodes modes sel used = inr (sel, used).
Proof.
  induction 1 as [|mode rest Hm _ IH]; [done|].
  simpl. by case_decide.
Qed.

Lemma match_modes_unambiguous nodes modes sel used :
  Forall (λ m, length (where_keyword nodes m) ≤ 1)%nat modes →
  ∃ sel' used', match_modes nodes modes sel used = inr (sel', used').
Proof.
  intros H. revert sel used.
  induction H as [|mode rest Hm _ IH]; intros sel used; [by eexists _, _|].
  simpl. case_decide as Hin; [|apply IH].
  case_decide; [lia|]. apply keyword_in_nodes in Hin.
  destruct (where_keyword nodes mode); [done|apply IH].
Qed.

Lemma match_modes_single nodes m e sel used :
  where_keyword nodes m = [e] →
  match_modes nodes [m] sel used = inr (of_row e, used ∪ {[m]}).
Proof.
  intros E. simpl.
  case_decide as Hin;
    [|exfalso; apply Hin; rewrite keyword_in_nodes, E; done].
  rewrite E. reflexivity.
Qed.

Lemma first_ambiguous nodes modes :
  Exists (λ m, 1 < length (where_keyword nodes m))%nat modes →
  ∃ pre m post,
    modes = pre ++ m :: post
    ∧ Forall (λ m', length (where_keyword nodes m') ≤ 1)%nat pre
    ∧ (1 < length (where_keyword nodes m))%nat.
Proof.
  induction modes as [|mode rest IH]; intros H.
  { by apply Exists_nil in H. }
  destruct (decide (1 < length (where_keyword nodes mode))%nat) as [Hlt|Hle].
  - exists [], mode, rest. split_and!; [done|constructor|done].
  - apply Exists_cons in H as [H|H]; [done|].
    destruct (IH H) as (pre & m & post & -> & Hpre & Hm).
    exists (mode :: pre), m, post. split_and!; [done| |done].
    constructor; [lia|done].
Qed.

Lemma match_modes_ambiguous nodes pre m post sel used :
  Forall (λ m', length (where_keyword nodes m') ≤ 1)%nat pre →
  (1 < length (where_keyword nodes m))%nat →
  match_modes nodes (pre ++ m :: post) sel used
  = inl (KeyError (length (where_keyword nodes m)) m).
Proof.
  intros Hpre Hm. rewrite match_modes_app.
  destruct (match_modes_unambiguous nodes pre sel used Hpre)
    as (sel1 & used1 & ->).
  simpl. rewrite decide_True.
  - by rewrite decide_True.
  - apply keyword_in_nodes. intros E. rewrite E in Hm. simpl in Hm. lia.
Qed.

Lemma body_select t modes s sel used :
  nodes_of t (innode s) ≠ [] →
  select t modes s = inr (sel, used) →
  body t modes s = advance s sel used.
Proof.
  intros Hne Hsel. unfold body. rewrite Hsel.
  case_decide as Hl; [|done]. by destruct (nodes_of t (innode s)).
Qed.

Lemma body_select_error t modes s e :
  nodes_of t (innode s) ≠ [] →
  select t modes s = inl e →
  body t modes s = Raise e.
Proof.
  intros Hne Hsel. unfold body. rewrite Hsel.
  case_decide as Hl; [|done]. by destruct (nodes_of t (innode s)).
Qed.

Lemma loop_iterate k fuel t modes s0 s :
  iterate k t modes s0 = Some s →
  loop (k + fuel) t modes s0 = loop fuel t modes s.
Proof.
  revert s0. induction k as [|k IH]; intros s0 H.
  - simpl in H. by simplify_eq.
  - simpl in *. case_decide; [|done].
    destruct (body t modes s0); [by apply IH|done..].
Qed.

(** C4: within one step, the token that is the last in the order of
    [modes] to match an edge of the current node decides the step: outnode,
    component and thermal component are those of its edge, whatever earlier
    tokens matched and whether or not the node has a default edge. *)
Theorem last_matching_mode_wins t s pre m post e :
  Forall (λ m', length (where_keyword (nodes_of t (innode s)) m') ≤ 1)%nat
    pre →
  where_keyword (nodes_of t (innode s)) m = [e] →
  Forall (λ m', ¬ in_keywords (nodes_of t (innode s)) m') post →
  ∃ used s',
    select t (pre ++ m :: post) s = inr (of_row e, used)
    ∧ (body t (pre ++ m :: post) s = Continue s'
       ∨ body t (pre ++ m :: post) s = Break SameOutnode s')
    ∧ innode s' = r_outnode e ∧ outnode s' = r_outnode e
    ∧ components s' = components s ++ [Some (r_compname e)]
    ∧ thcomponents s' = thcomponents s ++ [Some (r_thcompname e)].
Proof.
  intros Hpre He Hpost.
  set (nodes := nodes_of t (innode s)) in *.
  destruct (match_modes_unambiguous nodes pre (provisional nodes)
              (used_modes s) Hpre) as (sel1 & used1 & E1).
  assert (select t (pre ++ m :: post) s = inr (of_row e, used1 ∪ {[m]}))
    as Hsel.
  { unfold select. fold nodes. rewrite match_modes_app, E1.
    change (m :: post) with ([m] ++ post).
    rewrite match_modes_app, (match_modes_single _ _ e) by done.
    by apply match_modes_no_match. }
  assert (nodes ≠ []) as Hne.
  { intros E. unfold where_keyword in He. by rewrite E in He. }
  destruct (advance_fields s (of_row e) (used1 ∪ {[m]}))
    as (s' & Hadv & ? & ? & _ & ? & ? & _).
  exists (used1 ∪ {[m]}), s'.
  rewrite (body_select _ _ _ _ _ Hne Hsel). by split_and!.
Qed.

Lemma last_matching_mode_wins_witness :
  ∃ used s',
    select three_way ["acs"; "wfc1 "] (initial 1)
    = inr (of_row (mkRow "wfc1" 1 4 "C" "c"), used)
    ∧ (body three_way ["acs"; "wfc1 "] (initial 1) = Continue s'
       ∨ body three_way ["acs"; "wfc1 "] (initial 1) = Break SameOutnode s')
    ∧ innode s' = 4%Z ∧ outnode s' = 4%Z
    ∧ components s' = [Some "C"]
    ∧ thcomponents s' = [Some "c"].
Proof.
  apply (last_matching_mode_wins three_way (initial 1) ["acs"] "wfc1 " []
           (mkRow "wfc1" 1 4 "C" "c")).
  - repeat constructor.
  - vm_compute. reflexivity.
  - constructor.
Defined.

(** C5: at any node the traversal reaches, if a token of [modes] matches
    more than one edge of that node, the step raises the [KeyError] of line
    231 for the first such token in the order of [modes], with the number
    of edges it matches, and so does the call: no edge is picked and no
    further step is taken. *)
Theorem ambiguous_keyword_raises k t modes start s :
  iterate k t modes (initial start) = Some s →
  (0 ≤ outnode s)%Z →
  Exists (λ m, 1 < length (where_keyword (nodes_of t (innode s)) m))%nat
    modes →
  ∃ pre m post n,
    modes = pre ++ m :: post
    ∧ Forall (λ m', length (where_keyword (nodes_of t (innode s)) m') ≤ 1)%nat
        pre
    ∧ n = length (where_keyword (nodes_of t (innode s)) m) ∧ (1 < n)%nat
    ∧ body t modes s = Raise (KeyError n m)
    ∧ ∀ fuel, GetComponentsFromGT (k + S fuel) t modes start
              = Some (inl (KeyError n m)).
Proof.
  intros Hit Hout Hamb.
  destruct (first_ambiguous _ _ Hamb) as (pre & m & post & -> & Hpre & Hm).
  pose proof (match_modes_ambiguous _ _ _ post
                (provisional (nodes_of t (innode s))) (used_modes s) Hpre Hm)
    as Hsel.
  assert (nodes_of t (innode s) ≠ []) as Hne.
  { intros E. rewrite E in Hm. simpl in Hm. lia. }
  assert (body t (pre ++ m :: post) s
          = Raise (KeyError (length (where_keyword (nodes_of t (innode s)) m))
                     m)) as Hbody
    by (by apply body_select_error).
  exists pre, m, post, (length (where_keyword (nodes_of t (innode s)) m)).
  split_and!; try done.
  intros fuel. unfold GetComponentsFromGT.
  rewrite (loop_iterate _ _ _ _ _ _ Hit). simpl.
  case_decide; [|lia]. by rewrite Hbody.
Qed.

Lemma ambiguous_keyword_raises_witness :
  ∃ pre m post n,
    ["wfc1"; "acs "; "acs"] = pre ++ m :: post
    ∧ Forall (λ m', length (where_keyword (nodes_of two_acs 1) m') ≤ 1)%nat
        pre
    ∧ n = length (where_keyword (nodes_of two_acs 1) m) ∧ (1 < n)%nat
    ∧ body two_acs ["wfc1"; "acs "; "acs"] (initial 1) = Raise (KeyError n m)
    ∧ ∀ fuel, GetComponentsFromGT (0 + S fuel) two_acs
                ["wfc1"; "acs "; "acs"] 1
              = Some (inl (KeyError n m)).
Proof.
  apply (ambiguous_keyword_raises 0 two_acs ["wfc1"; "acs "; "acs"] 1
           (initial 1)).
  - reflexivity.
  - simpl. lia.
  - apply Exists_cons_tl, Exists_cons_hd. vm_compute. lia.
Defined.

Example ambiguous_keyword_with_blank :
  GetComponentsFromGT 1 two_acs ["wfc1"; "acs "; "acs"] 1
  = Some (inl (KeyError 2 "acs ")).
Proof. vm_compute. reflexivity. Qed.

(** C6, as stated, fails: a node without any entry has no default edge and
    no edge that matches a token either, and there the loop is left through
    line 205 and the call returns. Node 4 of the scenario is such a node. *)
Lemma no_entry_is_no_error :
  iterate 2 (four_edges 4) ["acs"] (initial 1)
  = Some (mkState 4 4 0 {["acs"]} [Some "B"; Some "D"] [Some "b"; Some "d"])
  ∧ (¬ in_keywords (nodes_of (four_edges 4) 4) "default")
  ∧ Forall (λ m, ¬ in_keywords (nodes_of (four_edges 4) 4) m) ["acs"]
  ∧ GetComponentsFromGT 3 (four_edges 4) ["acs"] 1
    = Some (inr ([Some "B"; Some "D"], [Some "b"; Some "d"]))
  ∧ ¬ ∃ fuel, GetComponentsFromGT fuel (four_edges 4) ["acs"] 1
              = Some (inl (ValueError_incomplete ["acs"])).
Proof.
  assert (GetComponentsFromGT 3 (four_edges 4) ["acs"] 1
          = Some (inr ([Some "B"; Some "D"], [Some "b"; Some "d"]))) as H3
    by (vm_compute; reflexivity).
  assert (nodes_of (four_edges 4) 4 = []) as -> by (vm_compute; reflexivity).
  split_and!.
  - vm_compute. reflexivity.
  - by_evaluation.
  - by_evaluation.
  - exact H3.
  - intros [fuel H].
    pose proof (GetComponentsFromGT_fuel_agree _ _ _ _ _ _ _ H H3) as E.
    discriminate E.
Qed.

(** C6, amended: at any node the traversal reaches that has at least one
    entry, but no default edge and no edge matching a token of [modes], the
    step sets outnode to [-2], appends [None] to both lists, the loop is
    left, and the call raises the 'Incomplete obsmode' error carrying
    [modes]. *)
Theorem dead_end_raises k t modes start s :
  iterate k t modes (initial start) = Some s →
  (0 ≤ outnode s)%Z →
  nodes_of t (innode s) ≠ [] →
  ¬ in_keywords (nodes_of t (innode s)) "default" →
  Forall (λ m, ¬ in_keywords (nodes_of t (innode s)) m) modes →
  body t modes s
  = Continue (mkState (-2) (-2) (count s) (used_modes s)
                (components s ++ [None]) (thcomponents s ++ [None]))
  ∧ ∀ fuel, GetComponentsFromGT (k + (2 + fuel)) t modes start
            = Some (inl (ValueError_incomplete modes)).
Proof.
  intros Hit Hout Hne Hdef Hmodes.
  assert (select t modes s = inr (mkSel (-2) None None, used_modes s))
    as Hsel.
  { unfold select. rewrite match_modes_no_match by done.
    unfold provisional. by case_decide. }
  assert (body t modes s
          = Continue (mkState (-2) (-2) (count s) (used_modes s)
                        (components s ++ [None]) (thcomponents s ++ [None])))
    as Hbody.
  { rewrite (body_select _ _ _ _ _ Hne Hsel). unfold advance. simpl.
    case_decide; [lia|done]. }
  split; [done|]. intros fuel. unfold GetComponentsFromGT.
  rewrite (loop_iterate _ _ _ _ _ _ Hit). simpl.
  case_decide; [|lia]. rewrite Hbody. reflexivity.
Qed.

Lemma dead_end_raises_witness :
  body no_default [] (mkState 2 2 0 ∅ [Some "A"] [Some "a"])
  = Continue (mkState (-2) (-2) 0 ∅ [Some "A"; None] [Some "a"; None])
  ∧ ∀ fuel, GetComponentsFromGT (1 + (2 + fuel)) no_default [] 1
            = Some (inl (ValueError_incomplete [])).
Proof.
  assert (nodes_of no_default 2 = [mkRow "acs" 2 3 "B" "b"]) as Hn
    by (vm_compute; reflexivity).
  apply (dead_end_raises 1 no_default [] 1
           (mkState 2 2 0 ∅ [Some "A"] [Some "a"])).
  - vm_compute. reflexivity.
  - simpl. lia.
  - simpl innode. rewrite Hn. discriminate.
  - simpl innode. rewrite Hn. by_evaluation.
  - constructor.
Defined.

(** C9: at a node with two or more default edges where no token of [modes]
    matches an edge, the step takes the first default row in table order:
    nothing is raised, and outnode, component and thermal component are
    those of that row. *)
Theorem first_default_row_used t modes s d1 d2 rest :
  where_keyword (nodes_of t (innode s)) "default" = d1 :: d2 :: rest →
  Forall (λ m, ¬ in_keywords (nodes_of t (innode s)) m) modes →
  select t modes s = inr (of_row d1, used_modes s)
  ∧ ∃ s',
      (body t modes s = Continue s' ∨ body t modes s = Break SameOutnode s')
      ∧ innode s' = r_outnode d1 ∧ outnode s' = r_outnode d1
      ∧ used_modes s' = used_modes s
      ∧ components s' = components s ++ [Some (r_compname d1)]
      ∧ thcomponents s' = thcomponents s ++ [Some (r_thcompname d1)].
Proof.
  intros Hdef Hmodes.
  assert (select t modes s = inr (of_row d1, used_modes s)) as Hsel.
  { unfold select. rewrite match_modes_no_match by done.
    unfold provisional. rewrite Hdef.
    case_decide as Hin; [done|].
    exfalso. apply Hin. apply keyword_in_nodes. by rewrite Hdef. }
  split; [done|].
  assert (nodes_of t (innode s) ≠ []) as Hne.
  { intros E. unfold where_keyword in Hdef. by rewrite E in Hdef. }
  destruct (advance_fields s (of_row d1) (used_modes s))
    as (s' & Hadv & ? & ? & ? & ? & ? & _).
  exists s'. rewrite (body_select _ _ _ _ _ Hne Hsel). by split_and!.
Qed.

Lemma first_default_row_used_witness :
  select two_defaults ["acs"] (initial 1)
  = inr (of_row (mkRow "default" 1 2 "A" "a"), ∅)
  ∧ ∃ s',
      (body two_defaults ["acs"] (initial 1) = Continue s'
       ∨ body two_defaults ["acs"] (initial 1) = Break SameOutnode s')
      ∧ innode s' = 2%Z ∧ outnode s' = 2%Z
      ∧ used_modes s' = ∅
      ∧ components s' = [Some "A"]
      ∧ thcomponents s' = [Some "a"].
Proof.
  apply (first_default_row_used two_defaults ["acs"] (initial 1)
           (mkRow "default" 1 2 "A" "a") (mkRow "default" 1 3 "B" "b") []).
  - vm_compute. reflexivity.
  - assert (nodes_of two_defaults 1 = two_defaults) as Hn
      by (vm_compute; reflexivity).
    simpl innode. rewrite Hn. by_evaluation.
Defined.

(** ** Letter case of keywords *)

Lemma lower_ascii_idem c : lower_ascii (lower_ascii c) = lower_ascii c.
Proof. destruct c as [[] [] [] [] [] [] [] []]; reflexivity. Qed.

Lemma lower_idem s : lower (lower s) = lower s.
Proof.
  induction s as [|c s IH]; [done|]. simpl. by rewrite lower_ascii_idem, IH.
Qed.

Lemma is_blank_lower c : is_blank (lower_ascii c) = is_blank c.
Proof. destruct c as [[] [] [] [] [] [] [] []]; reflexivity. Qed.

Lemma rstrip_lower s : rstrip (lower s) = lower (rstrip s).
Proof.
  induction s as [|c s IH]; [done|]. simpl. rewrite IH.
  destruct (rstrip s) as [|c' r]; simpl; [|done].
  rewrite is_blank_lower. by destruct (is_blank c).
Qed.

(** A token matches, in the loaded table, the rows whose keyword in the
    file equals it up to letter case (and blanks at the end), provided it
    is itself in lower case; otherwise it matches none. *)
Lemma where_keyword_rows ext1 mode :
  where_keyword (GraphTable_rows ext1) mode
  = if decide (matches (lower mode) mode)
    then lower_row
         <$> filter (λ r, matches (lower (r_keyword r)) (lower mode)) ext1
    else [].
Proof.
  unfold where_keyword, GraphTable_rows.
  destruct (decide (matches (lower mode) mode)) as [Hm|Hm].
  - induction ext1 as [|r ext1 IH]; [done|].
    rewrite fmap_cons, !filter_cons, IH. simpl.
    destruct (decide (matches (lower (r_keyword r)) mode)) as [H1|H1],
      (decide (matches (lower (r_keyword r)) (lower mode))) as [H2|H2];
      try done; exfalso; unfold matches in *; congruence.
  - induction ext1 as [|r ext1 IH]; [done|].
    rewrite fmap_cons, filter_cons, IH. simpl.
    destruct (decide (matches (lower (r_keyword r)) mode)) as [H1|H1];
      [|done].
    exfalso. apply Hm. unfold matches in *.
    rewrite rstrip_lower, <- H1, !rstrip_lower. by rewrite lower_idem.
Qed.

Lemma same_up_to_case_rows ext1 ext1' :
  Forall2 same_up_to_case ext1 ext1' →
  GraphTable_rows ext1 = GraphTable_rows ext1'.
Proof.
  unfold GraphTable_rows. induction 1 as [|r r' l l' Hr _ IH]; [done|].
  rewrite !fmap_cons, IH. f_equal.
  destruct r, r', Hr as (? & ? & ? & ? & ?). unfold lower_row.
  simpl in *. congruence.
Qed.

(** C7, as stated, fails: the letters of a token are compared as they are
    supplied. On the loaded table, "acs" takes the edge whose keyword the
    file spells "ACS", while the token "ACS" matches nothing and is reported
    as unused. *)
Lemma upper_case_token_unmatched :
  lower "ACS" = lower "acs"
  ∧ GetComponentsFromGT 3 (GraphTable_rows four_edges_mixed) ["acs"] 1
    = Some (inr ([Some "B"; Some "D"], [Some "b"; Some "d"]))
  ∧ GetComponentsFromGT 3 (GraphTable_rows four_edges_mixed) ["ACS"] 1
    = Some (inl (ValueError_unused {["ACS"]}))
  ∧ where_keyword (GraphTable_rows four_edges_mixed) "ACS" = [].
Proof. split_and!; vm_compute; reflexivity. Qed.

(** C7, amended: the letter case of the edge keywords in the file does not
    matter, that of the token does. In the loaded table a token in lower
    case matches exactly the rows whose keyword equals it up to case (the
    comparison ignoring blanks at the end, as everywhere), a token with an
    upper-case letter matches no row, and two files that differ only in the
    case of their keywords resolve alike. *)
Theorem keyword_case_of_edges ext1 ext1' mode fuel modes start :
  Forall2 same_up_to_case ext1 ext1' →
  where_keyword (GraphTable_rows ext1) mode
  = (if decide (matches (lower mode) mode)
     then lower_row
          <$> filter (λ r, matches (lower (r_keyword r)) (lower mode)) ext1
     else [])
  ∧ GetComponentsFromGT fuel (GraphTable_rows ext1) modes start
    = GetComponentsFromGT fuel (GraphTable_rows ext1') modes start.
Proof.
  intros H. split; [apply where_keyword_rows|].
  by rewrite (same_up_to_case_rows _ _ H).
Qed.

Lemma keyword_case_of_edges_witness :
  where_keyword (GraphTable_rows four_edges_mixed) "acs "
  = [mkRow "acs" 1 3 "B" "b"]
  ∧ GetComponentsFromGT 3 (GraphTable_rows four_edges_mixed) ["acs "] 1
    = GetComponentsFromGT 3 (GraphTable_rows (four_edges 4)) ["acs "] 1.
Proof.
  assert (Forall2 same_up_to_case four_edges_mixed (four_edges 4)) as H.
  { unfold four_edges_mixed, four_edges, four_edges_th.
    repeat (constructor; [repeat split|]). constructor. }
  destruct (keyword_case_of_edges four_edges_mixed (four_edges 4) "acs " 3
              ["acs "] 1 H) as [H1 H2].
  split; [|exact H2]. rewrite H1. vm_compute. reflexivity.
Defined.

(** ** The component table *)

Lemma compdict_of_lookup ext1 name :
  compdict_of ext1 !! name
  = c_filename <$> last (filter (λ r, c_compname r = name) ext1).
Proof.
  unfold compdict_of.
  induction ext1 as [|r ext1 IH] using rev_ind; [done|].
  rewrite foldl_snoc, filter_app, lookup_insert.
  rewrite filter_cons, filter_nil. case_decide as Hr.
  - by rewrite last_snoc.
  - by rewrite app_nil_r.
Qed.

(** C8: [filename_for] returns the file name that the dictionary of lines
    49-51 holds for the name, which is that of the last row with this name,
    and fails with [NotFoundError] exactly when no row has the name. *)
Theorem filename_for_lookup ext1 name :
  filename_for ext1 name
  = match last (filter (λ r, c_compname r = name) ext1) with
    | Some r => inr (c_filename r)
    | None => inl NotFoundError
    end
  ∧ (name ∉ (c_compname <$> ext1) ↔ filename_for ext1 name = inl NotFoundError)
  ∧ filename_for [mkCompRow "A" "a.fits"; mkCompRow "B" "b.fits"] "A"
    = inr "a.fits"
  ∧ filename_for [mkCompRow "A" "a.fits"; mkCompRow "B" "b.fits"] "Z"
    = inl NotFoundError.
Proof.
  assert (filename_for ext1 name
          = match last (filter (λ r, c_compname r = name) ext1) with
            | Some r => inr (c_filename r)
            | None => inl NotFoundError
            end) as Heq.
  { unfold filename_for. rewrite compdict_of_lookup.
    by destruct (last _). }
  split_and!; [done| |vm_compute; reflexivity..].
  rewrite Heq. split.
  - intros Hnot.
    destruct (last (filter (λ r, c_compname r = name) ext1)) as [r|] eqn:E;
      [|done].
    exfalso. apply Hnot. apply last_Some_elem_of in E.
    apply (list_elem_of_filter (λ r, c_compname r = name)) in E as [<- E].
    apply list_elem_of_fmap. by exists r.
  - intros Hl Hin. apply list_elem_of_fmap in Hin as (r & -> & Hr).
    destruct (last (filter (λ r', c_compname r' = c_compname r) ext1)) eqn:E;
      [done|].
    apply last_None in E.
    assert (r ∈ filter (λ r', c_compname r' = c_compname r) ext1) as Hx
      by (by apply list_elem_of_filter).
    rewrite E in Hx. by apply not_elem_of_nil in Hx.
Qed.

(** ** The counter of repeated outnodes *)

Lemma body_continue t modes s s' :
  body t modes s = Continue s' →
  count s' = (count s + if decide (outnode s' = outnode s) then 1 else 0)%nat
  ∧ (count s ≤ 3 → count s' ≤ 3)%nat.
Proof.
  unfold body. case_decide; [done|].
  destruct (select t modes s) as [e|[sel used]]; [done|].
  unfold advance. case_decide as Hst.
  - case_decide; [done|]. intros [= <-]. simpl.
    rewrite decide_True by done. lia.
  - intros [= <-]. simpl. rewrite decide_False by done. lia.
Qed.

Lemma body_break t modes s why s' :
  body t modes s = Break why s' →
  (why = NoSuchInnode ∧ s' = s)
  ∨ (why = SameOutnode ∧ outnode s' = outnode s
     ∧ count s' = S (count s) ∧ (3 < count s')%nat).
Proof.
  unfold body. case_decide; [intros [= <- <-]; by left|].
  destruct (select t modes s) as [e|[sel used]]; [done|].
  unfold advance. case_decide as Hst; [|done].
  case_decide; [|done]. intros [= <- <-]. right. by simpl.
Qed.

Lemma visited_count fuel t modes s0 i si :
  visited fuel t modes s0 !! i = Some si →
  count si
  = (count s0
     + stall_steps (outnode s0)
         (take (S i) (outnode <$> visited fuel t modes s0)))%nat.
Proof.
  revert s0 i. induction fuel as [|fuel IH]; intros s0 i Hi; [done|].
  simpl in *. case_decide; [|done].
  destruct (body t modes s0) as [s1|why s1|e] eqn:Hb; [| |done].
  - apply body_continue in Hb as [Hc _].
    destruct i as [|i]; simpl in *.
    + simplify_eq. rewrite Hc. case_decide; lia.
    + rewrite (IH _ _ Hi), Hc. unfold fmap. case_decide; lia.
  - destruct why; try done.
    apply body_break in Hb as [[? _]|(_ & Ho & Hc & _)]; [done|].
    destruct i as [|i]; [|done]. simpl in *. simplify_eq.
    rewrite Hc, decide_True by done. lia.
Qed.

Lemma loop_final_count fuel t modes s0 why s :
  loop fuel t modes s0 = Some (inr (why, s)) →
  count s
  = (count s0
     + stall_steps (outnode s0) (outnode <$> visited fuel t modes s0))%nat.
Proof.
  revert s0. induction fuel as [|fuel IH]; intros s0 H; [done|].
  simpl in *. case_decide; [|simplify_eq; simpl; lia].
  destruct (body t modes s0) as [s1|why1 s1|e] eqn:Hb; [| |done].
  - apply body_continue in Hb as [Hc _]. rewrite (IH _ H). simpl.
    rewrite Hc. unfold fmap. case_decide; lia.
  - simplify_eq.
    apply body_break in Hb as [[-> ->]|(-> & Ho & Hc & _)]; simpl; [lia|].
    rewrite Hc, decide_True by done. lia.
Qed.

Lemma loop_stop_count fuel t modes s0 why s :
  loop fuel t modes s0 = Some (inr (why, s)) →
  (count s0 ≤ 3)%nat →
  (why = SameOutnode → count s = 4%nat ∧ (0 ≤ outnode s)%Z)
  ∧ (why ≠ SameOutnode → (count s ≤ 3)%nat).
Proof.
  revert s0. induction fuel as [|fuel IH]; intros s0 H Hc0; [done|].
  simpl in H. case_decide; [|by simplify_eq].
  destruct (body t modes s0) as [s1|why1 s1|e] eqn:Hb; [| |done].
  - apply body_continue in Hb as [_ Hc]. apply (IH _ H). by apply Hc.
  - simplify_eq.
    apply body_break in Hb as [[-> ->]|(-> & Ho & Hc & Hgt)].
    + done.
    + split; [|done]. intros _. split; [lia|]. by rewrite Ho.
Qed.

Lemma visited_stall_exit fuel t modes s0 :
  (count s0 ≤ 3)%nat →
  (count s0 + stall_steps (outnode s0) (outnode <$> visited fuel t modes s0)
   ≤ 4)%nat
  ∧ ((count s0
      + stall_steps (outnode s0) (outnode <$> visited fuel t modes s0))%nat
     = 4%nat →
     ∃ s, loop fuel t modes s0 = Some (inr (SameOutnode, s))
          ∧ last (visited fuel t modes s0) = Some s).
Proof.
  revert s0. induction fuel as [|fuel IH]; intros s0 Hc0.
  { simpl. split; [lia|]. intros ?. lia. }
  simpl. case_decide as Ho; [|simpl; split; [lia|intros ?; lia]].
  destruct (body t modes s0) as [s1|why s1|e] eqn:Hb.
  - apply body_continue in Hb as [Hc Hc3].
    destruct (IH s1 (Hc3 Hc0)) as [Hle Hex].
    rewrite fmap_cons. cbn [stall_steps].
    assert ((count s0
             + ((if decide (outnode s1 = outnode s0) then 1 else 0)
                + stall_steps (outnode s1)
                    (outnode <$> visited fuel t modes s1)))%nat
            = (count s1
               + stall_steps (outnode s1)
                   (outnode <$> visited fuel t modes s1))%nat) as ->
      by (rewrite Hc; lia).
    split; [done|]. intros H4. destruct (Hex H4) as (s & Hloop & Hlast).
    exists s. split; [done|]. rewrite last_cons. by rewrite Hlast.
  - destruct why.
    + simpl. split; [lia|intros ?; lia].
    + apply body_break in Hb as [[? _]|(_ & Hsame & Hc & Hgt)]; [done|].
      simpl. rewrite decide_True by done. split; [lia|]. intros _.
      by exists s1.
    + apply body_break in Hb as [[? _]|[? _]]; done.
  - simpl. split; [lia|intros ?; lia].
Qed.

(** C10: the counter is never reset. After every step it equals the number
    of steps so far whose outnode repeated that of the step before (the
    first step is compared with the initial 0), whatever steps lie between
    them. That number never exceeds four, and as soon as it is four the loop
    has stopped, at that very step and through the guard of line 253: the
    final outnode is then not negative and the call gives its result
    without raising the 'Incomplete obsmode' error. The guard stops the
    loop in no other case. *)
Theorem stall_counter_cumulative fuel t modes start :
  (∀ i si, visited fuel t modes (initial start) !! i = Some si →
     count si
     = stall_steps 0
         (take (S i) (outnode <$> visited fuel t modes (initial start))))
  ∧ (stall_steps 0 (outnode <$> visited fuel t modes (initial start)) ≤ 4)%nat
  ∧ (stall_steps 0 (outnode <$> visited fuel t modes (initial start)) = 4%nat
     → ∃ s,
         loop fuel t modes (initial start) = Some (inr (SameOutnode, s))
         ∧ last (visited fuel t modes (initial start)) = Some s
         ∧ count s = 4%nat ∧ (0 ≤ outnode s)%Z
         ∧ GetComponentsFromGT fuel t modes start = Some (finish modes s)
         ∧ ∀ ms, finish modes s ≠ inl (ValueError_incomplete ms))
  ∧ (∀ s, loop fuel t modes (initial start) = Some (inr (SameOutnode, s)) →
          stall_steps 0 (outnode <$> visited fuel t modes (initial start))
          = 4%nat).
Proof.
  destruct (visited_stall_exit fuel t modes (initial start)) as [Hle Hex];
    [simpl; lia|].
  simpl in Hle, Hex. split_and!.
  - intros i si Hi. by rewrite (visited_count _ _ _ _ _ _ Hi).
  - done.
  - intros H4. destruct (Hex H4) as (s & Hloop & Hlast).
    destruct (loop_stop_count _ _ _ _ _ _ Hloop) as [Hstall _];
      [simpl; lia|].
    destruct (Hstall eq_refl) as [Hc Ho].
    exists s. split_and!; try done.
    + unfold GetComponentsFromGT. by rewrite Hloop.
    + intros ms. unfold finish. rewrite decide_False by lia. by case_decide.
  - intros s Hloop.
    destruct (loop_stop_count _ _ _ _ _ _ Hloop) as [Hstall _];
      [simpl; lia|].
    destruct (Hstall eq_refl) as [Hc _].
    by rewrite (loop_final_count _ _ _ _ _ _ Hloop) in Hc.
Qed.

Lemma stall_counter_cumulative_witness :
  outnode <$> visited 5 stall_then_progress [] (initial 7) = [0; 5; 5; 5; 5]%Z
  ∧ count <$> visited 5 stall_then_progress [] (initial 7) = [1; 1; 2; 3; 4]
  ∧ ∃ s,
      loop 5 stall_then_progress [] (initial 7) = Some (inr (SameOutnode, s))
      ∧ last (visited 5 stall_then_progress [] (initial 7)) = Some s
      ∧ count s = 4%nat ∧ (0 ≤ outnode s)%Z
      ∧ GetComponentsFromGT 5 stall_then_progress [] 7
        = Some (finish [] s)
      ∧ ∀ ms, finish [] s ≠ inl (ValueError_incomplete ms).
Proof.
  split; [vm_compute; reflexivity|]. split; [vm_compute; reflexivity|].
  apply (proj1 (proj2 (proj2
           (stall_counter_cumulative 5 stall_then_progress [] 7)))).
  vm_compute. reflexivity.
Defined.

Example stall_then_progress_result :
  GetComponentsFromGT 5 stall_then_progress [] 7
  = Some (inr ([Some "A"; Some "B"; Some "C"; Some "C"; Some "C"],
               [Some "a"; Some "b"; Some "c"; Some "c"; Some "c"])).
Proof. vm_compute. reflexivity. Qed.

(** * Further properties of the traversal *)

(** ** How the loop is left *)

Lemma iterate_snoc k t modes s0 s s' :
  iterate k t modes s0 = Some s → (0 ≤ outnode s)%Z →
  body t modes s = Continue s' →
  iterate (S k) t modes s0 = Some s'.
Proof.
  revert s0. induction k as [|k IH]; intros s0 Hk Ho Hb.
  - simpl in Hk. simplify_eq. simpl. rewrite decide_True by done.
    by rewrite Hb.
  - simpl in Hk. case_decide; [|done].
    destruct (body t modes s0) as [s1| |] eqn:E; [|done..].
    specialize (IH _ Hk Ho Hb).
    change (iterate (S (S k)) t modes s0)
      with (if decide (0 ≤ outnode s0)%Z then
              match body t modes s0 with
              | Continue s2 => iterate (S k) t modes s2
              | _ => None
              end
            else None).
    rewrite decide_True by done. by rewrite E.
Qed.

Lemma iterate_nonneg k t modes s0 s :
  iterate (S k) t modes s0 = Some s → (0 ≤ outnode s0)%Z.
Proof. simpl. by case_decide. Qed.

(** Every way out of the loop is the end of some number of complete
    iterations. *)
Lemma loop_decompose fuel t modes s0 res :
  loop fuel t modes s0 = Some res →
  ∃ k s,
    iterate k t modes s0 = Some s
    ∧ match res with
      | inl e => (0 ≤ outnode s)%Z ∧ body t modes s = Raise e
      | inr (NegativeOutnode, s') => s' = s ∧ (outnode s < 0)%Z
      | inr (why, s') => (0 ≤ outnode s)%Z ∧ body t modes s = Break why s'
      end.
Proof.
  revert s0. induction fuel as [|fuel IH]; intros s0 H; [done|].
  simpl in H. case_decide as Ho.
  - destruct (body t modes s0) as [s1|why s1|e] eqn:Hb.
    + destruct (IH _ H) as (k & s & Hk & Hres).
      exists (S k), s. split; [|done]. simpl.
      rewrite decide_True by done. by rewrite Hb.
    + simplify_eq. exists 0%nat, s0. split; [done|].
      destruct why; try done.
      apply body_break in Hb as [[? _]|[? _]]; done.
    + simplify_eq. by exists 0%nat, s0.
  - simplify_eq. exists 0%nat, s0. split; [done|]. split; [done|lia].
Qed.

Lemma iterate_last k t modes s0 s :
  iterate (S k) t modes s0 = Some s →
  ∃ s1, iterate k t modes s0 = Some s1 ∧ (0 ≤ outnode s1)%Z
        ∧ body t modes s1 = Continue s.
Proof.
  revert s0. induction k as [|k IH]; intros s0 H.
  - simpl in H. case_decide; [|done].
    destruct (body t modes s0) as [s1| |] eqn:E; [|done..].
    simplify_eq. by exists s0.
  - pose proof (iterate_nonneg _ _ _ _ _ H) as Ho.
    change (iterate (S (S k)) t modes s0)
      with (if decide (0 ≤ outnode s0)%Z then
              match body t modes s0 with
              | Continue s2 => iterate (S k) t modes s2
              | _ => None
              end
            else None) in H.
    rewrite decide_True in H by done.
    destruct (body t modes s0) as [s2| |] eqn:E; [|done..].
    destruct (IH _ H) as (s1 & Hk & Ho1 & Hb).
    exists s1. split; [|done]. simpl. rewrite decide_True by done.
    by rewrite E.
Qed.

(** ** What a step selects *)

Lemma provisional_sentinel nodes :
  ¬ in_keywords nodes "default" → provisional nodes = mkSel (-2) None None.
Proof. intros H. unfold provisional. by case_decide. Qed.

Lemma provisional_default nodes :
  in_keywords nodes "default" →
  ∃ r, r ∈ nodes ∧ matches (r_keyword r) "default"
        ∧ provisional nodes = of_row r.
Proof.
  intros H. unfold provisional. rewrite decide_True by done.
  apply keyword_in_nodes in H.
  destruct (where_keyword nodes "default") as [|dfi rest] eqn:E; [done|].
  exists dfi. apply where_keyword_head in E. tauto.
Qed.

Lemma match_modes_cases_keyword nodes modes sel used sel' used' :
  match_modes nodes modes sel used = inr (sel', used') →
  (sel' = sel ∧ Forall (λ m, ¬ in_keywords nodes m) modes)
  ∨ ∃ r, r ∈ nodes ∧ Exists (λ m, matches (r_keyword r) m) modes
         ∧ sel' = of_row r.
Proof.
  revert sel used. induction modes as [|mode rest IH]; intros sel used H.
  - simpl in H. left. split; [congruence|constructor].
  - simpl in H. case_decide as Hin.
    + case_decide; [done|].
      destruct (where_keyword nodes mode) as [|idx tl] eqn:E; [done|].
      apply where_keyword_head in E as [Hkw Hidx]. right.
      apply IH in H as [[-> _]|(r & Hr & Hk & ->)].
      * exists idx. split_and!; [done|by apply Exists_cons_hd|done].
      * exists r. split_and!; [done|by apply Exists_cons_tl|done].
    + apply IH in H as [[-> Hrest]|(r & Hr & Hk & ->)].
      * left. split; [done|by constructor].
      * right. exists r. split_and!; [done|by apply Exists_cons_tl|done].
Qed.

Lemma match_modes_error nodes modes sel used e :
  match_modes nodes modes sel used = inl e →
  ∃ n m, e = KeyError n m ∧ m ∈ modes
         ∧ n = length (where_keyword nodes m) ∧ (2 ≤ n)%nat.
Proof.
  revert sel used. induction modes as [|mode rest IH]; intros sel used H;
    [done|].
  simpl in H. case_decide as Hin.
  - case_decide as Hlen.
    + simplify_eq. eexists _, mode. split_and!; [done|by left|done|lia].
    + apply keyword_in_nodes in Hin.
      destruct (where_keyword nodes mode) as [|idx tl]; [done|].
      apply IH in H as (n & m & ? & ? & ? & ?).
      exists n, m. split_and!; [done|by right|done..].
  - apply IH in H as (n & m & ? & ? & ? & ?).
    exists n, m. split_and!; [done|by right|done..].
Qed.

(** The selection of a step: either nothing at all (no default edge and no
    matching token), or a row of the node that is a default row or carries
    a token. *)
Lemma select_cases t modes s sel used :
  select t modes s = inr (sel, used) →
  used = used_modes s
         ∪ list_to_set
             (filter (λ m, in_keywords (nodes_of t (innode s)) m) modes)
  ∧ ((sel = mkSel (-2) None None
      ∧ (¬ in_keywords (nodes_of t (innode s)) "default")
      ∧ Forall (λ m, ¬ in_keywords (nodes_of t (innode s)) m) modes)
     ∨ ∃ r, r ∈ nodes_of t (innode s) ∧ keeps modes r ∧ sel = of_row r).
Proof.
  unfold select. intros H. split; [by apply match_modes_used in H|].
  apply match_modes_cases_keyword in H as [[-> Hno]|(r & Hr & Hk & ->)].
  - destruct (decide (in_keywords (nodes_of t (innode s)) "default"))
      as [Hd|Hd].
    + right. apply provisional_default in Hd as (r & Hr & Hk & ->).
      exists r. split_and!; [done|by left|done].
    + left. by rewrite provisional_sentinel.
  - right. exists r. split_and!; [done|by right|done].
Qed.

Lemma nodes_of_elem t n r : r ∈ nodes_of t n ↔ r_innode r = n ∧ r ∈ t.
Proof.
  unfold nodes_of. apply (list_elem_of_filter (λ r', r_innode r' = n)).
Qed.

(** ** The rows a traversal has taken *)

Lemma chain_snoc t modes n rows m r :
  chain t modes n rows m → r ∈ t → r_innode r = m → keeps modes r →
  chain t modes n (rows ++ [r]) (r_outnode r).
Proof.
  revert n. induction rows as [|r0 rows IH]; intros n Hc Hr Hin Hk; simpl in *.
  - subst. by split_and!.
  - destruct Hc as (? & ? & ? & Hc). split_and!; try done. by apply IH.
Qed.

Lemma chain_rows t modes n rows m :
  chain t modes n rows m → Forall (λ r, r ∈ t ∧ keeps modes r) rows.
Proof.
  revert n. induction rows as [|r rows IH]; intros n Hc; [constructor|].
  destruct Hc as (? & ? & ? & Hc). constructor; [done|by eapply IH].
Qed.

Lemma stall_steps_snoc prev os o :
  stall_steps prev (os ++ [o])
  = (stall_steps prev os
     + if decide (o = default prev (last os)) then 1 else 0)%nat.
Proof.
  revert prev. induction os as [|o1 os IH]; intros prev.
  - simpl. case_decide; lia.
  - change ((o1 :: os) ++ [o]) with (o1 :: (os ++ [o])).
    cbn [stall_steps]. rewrite IH, last_cons.
    assert (default prev (match last os with
                          | Some y => Some y
                          | None => Some o1
                          end) = default o1 (last os)) as ->
      by (by destruct (last os)).
    lia.
Qed.

Lemma last_outnode_snoc rows r : last_outnode (rows ++ [r]) = r_outnode r.
Proof. unfold last_outnode. by rewrite fmap_snoc, last_snoc. Qed.

Lemma matched_along_nil t modes : matched_along t modes [] = ∅.
Proof.
  unfold matched_along. apply set_eq. intros m.
  rewrite elem_of_list_to_set.
  rewrite (list_elem_of_filter (λ m, Exists _ [])), Exists_nil. set_solver.
Qed.

Lemma elem_of_matched_along t modes rows m :
  m ∈ matched_along t modes rows
  ↔ m ∈ modes
    ∧ Exists (λ r, in_keywords (nodes_of t (r_innode r)) m) rows.
Proof.
  unfold matched_along. rewrite elem_of_list_to_set.
  rewrite (list_elem_of_filter
             (λ m, Exists (λ r, in_keywords (nodes_of t (r_innode r)) m)
                     rows)).
  tauto.
Qed.

Lemma matched_along_snoc t modes rows r :
  matched_along t modes (rows ++ [r])
  = matched_along t modes rows
    ∪ list_to_set
        (filter (λ m, in_keywords (nodes_of t (r_innode r)) m) modes).
Proof.
  apply set_eq. intros m.
  rewrite elem_of_union, !elem_of_matched_along, elem_of_list_to_set.
  rewrite (list_elem_of_filter
             (λ m, in_keywords (nodes_of t (r_innode r)) m)).
  rewrite Exists_app, Exists_cons, Exists_nil. tauto.
Qed.

Lemma follows_initial t modes start : follows t modes start [] (initial start).
Proof.
  unfold follows. simpl. split_and!; try done.
  by rewrite matched_along_nil.
Qed.

(** A step that ends on an outnode that is not negative took a row. *)
Lemma follows_step t modes start rows s s' :
  follows t modes start rows s →
  (body t modes s = Continue s' ∨ body t modes s = Break SameOutnode s') →
  (0 ≤ outnode s')%Z →
  ∃ r, r ∈ nodes_of t (innode s) ∧ keeps modes r
       ∧ follows t modes start (rows ++ [r]) s'.
Proof.
  intros (Hch & Hnn & Hco & Hth & Hus & Hou & Hcn) Hb Ho.
  unfold body in Hb. case_decide; [by destruct Hb|].
  destruct (select t modes s) as [e|[sel used]] eqn:Hsel; [by destruct Hb|].
  apply select_cases in Hsel as [Hused Hsel].
  destruct (advance_fields s sel used)
    as (s1 & Hadv & Hi1 & Ho1 & Hu1 & Hc1 & Ht1 & Hn1).
  assert (s' = s1) as ->.
  { destruct Hadv as [Ha|Ha], Hb as [Hb|Hb]; congruence. }
  destruct Hsel as [(-> & _)|(r & Hr & Hk & ->)].
  { simpl in Ho1. lia. }
  exists r. split_and!; [done..|].
  apply nodes_of_elem in Hr as [Hrin Hrt].
  unfold follows. split_and!.
  - rewrite Hi1. simpl. by apply (chain_snoc _ _ _ _ (innode s)).
  - apply Forall_app. split; [done|]. constructor; [|constructor].
    by rewrite Ho1 in Ho.
  - rewrite Hc1, Hco, fmap_snoc. done.
  - rewrite Ht1, Hth, fmap_snoc. done.
  - rewrite Hu1, Hused, Hus, matched_along_snoc, Hrin. done.
  - rewrite Ho1, last_outnode_snoc. done.
  - rewrite Hn1, Hcn, fmap_snoc. rewrite stall_steps_snoc.
    f_equal. simpl in *. rewrite Hou. unfold last_outnode.
    repeat case_decide; congruence.
Qed.

Lemma follows_iterate k t modes start s :
  iterate k t modes (initial start) = Some s →
  (0 ≤ outnode s)%Z →
  ∃ rows, follows t modes start rows s ∧ length rows = k.
Proof.
  revert s. induction k as [|k IH]; intros s Hk Ho.
  - simpl in Hk. simplify_eq. exists []. split; [|done].
    apply follows_initial.
  - apply iterate_last in Hk as (s1 & Hk & Ho1 & Hb).
    destruct (IH _ Hk Ho1) as (rows & Hf & Hlen).
    destruct (follows_step _ _ _ _ _ _ Hf (or_introl Hb) Ho)
      as (r & _ & _ & Hf').
    exists (rows ++ [r]). split; [done|]. rewrite length_app. simpl. lia.
Qed.

Lemma body_break_no_entry t modes s s' :
  body t modes s = Break NoSuchInnode s' →
  s' = s ∧ nodes_of t (innode s) = [].
Proof.
  unfold body. case_decide as Hl.
  - intros [= <-]. split; [done|].
    by destruct (nodes_of t (innode s)).
  - destruct (select t modes s) as [e|[sel used]]; [done|].
    unfold advance. repeat case_decide; done.
Qed.

Lemma body_raise t modes s e :
  body t modes s = Raise e →
  nodes_of t (innode s) ≠ [] ∧ select t modes s = inl e.
Proof.
  unfold body. case_decide as Hl; [done|].
  destruct (select t modes s) as [e'|[sel used]].
  - intros [= <-]. split; [|done]. intros E. by rewrite E in Hl.
  - unfold advance. repeat case_decide; done.
Qed.

Lemma body_continue_select t modes s s' :
  body t modes s = Continue s' →
  nodes_of t (innode s) ≠ []
  ∧ ∃ sel used, select t modes s = inr (sel, used)
                ∧ outnode s' = sel_outnode sel.
Proof.
  unfold body. case_decide as Hl; [done|].
  destruct (select t modes s) as [e'|[sel used]]; [done|].
  intros Hadv. split; [intros E; by rewrite E in Hl|].
  exists sel, used. split; [done|].
  destruct (advance_fields s sel used) as (s1 & [Ha|Ha] & _ & Ho & _);
    congruence.
Qed.

(** A loop left on an outnode that is not negative leaves the state of a
    chain of rows, at a node without entry or on the fourth repetition. *)
Lemma loop_exit_follows fuel t modes start why s :
  loop fuel t modes (initial start) = Some (inr (why, s)) →
  (0 ≤ outnode s)%Z →
  ∃ rows, follows t modes start rows s
          ∧ (nodes_of t (innode s) = []
             ∨ stall_steps 0 (r_outnode <$> rows) = 4%nat).
Proof.
  intros Hloop Ho.
  destruct (loop_stop_count _ _ _ _ _ _ Hloop) as [Hstall _]; [simpl; lia|].
  destruct (loop_decompose _ _ _ _ _ Hloop) as (k & s1 & Hk & Hres).
  destruct why.
  - destruct Hres as [Ho1 Hb].
    apply body_break_no_entry in Hb as [-> Hn].
    destruct (follows_iterate _ _ _ _ _ Hk Ho1) as (rows & Hf & _).
    exists rows. split; [done|by left].
  - destruct Hres as [Ho1 Hb].
    destruct (follows_iterate _ _ _ _ _ Hk Ho1) as (rows & Hf & _).
    destruct (follows_step _ _ _ _ _ _ Hf (or_intror Hb) Ho)
      as (r & _ & _ & Hf').
    exists (rows ++ [r]). split; [done|]. right.
    destruct Hf' as (_ & _ & _ & _ & _ & _ & <-). by apply Hstall.
  - destruct Hres as [-> ?]. lia.
Qed.

Lemma GetComponentsFromGT_cases fuel t modes start r :
  GetComponentsFromGT fuel t modes start = Some r →
  (∃ e, r = inl e ∧ loop fuel t modes (initial start) = Some (inl e))
  ∨ ∃ why s, loop fuel t modes (initial start) = Some (inr (why, s))
             ∧ r = finish modes s.
Proof.
  unfold GetComponentsFromGT.
  destruct (loop fuel t modes (initial start)) as [[e|[why s]]|]; [| |done].
  - intros [= <-]. left. by exists e.
  - intros [= <-]. right. by exists why, s.
Qed.

Lemma finish_cases modes s :
  ((outnode s < 0)%Z ∧ finish modes s = inl (ValueError_incomplete modes))
  ∨ ((0 ≤ outnode s)%Z ∧ list_to_set modes ≠ used_modes s
     ∧ finish modes s
       = inl (ValueError_unused (list_to_set modes ∖ used_modes s)))
  ∨ ((0 ≤ outnode s)%Z ∧ list_to_set modes = used_modes s
     ∧ finish modes s = inr (components s, thcomponents s)).
Proof.
  unfold finish. case_decide; [left; done|]. right.
  case_decide.
  - left. split_and!; [lia|done..].
  - right. split_and!; [lia|done..].
Qed.

Lemma loop_raises_KeyError fuel t modes s0 e :
  loop fuel t modes s0 = Some (inl e) →
  ∃ k s n m, iterate k t modes s0 = Some s ∧ (0 ≤ outnode s)%Z
             ∧ e = KeyError n m ∧ m ∈ modes
             ∧ n = length (where_keyword (nodes_of t (innode s)) m)
             ∧ (2 ≤ n)%nat.
Proof.
  intros Hloop.
  destruct (loop_decompose _ _ _ _ _ Hloop) as (k & s & Hk & Ho & Hb).
  apply body_raise in Hb as [_ Hsel]. unfold select in Hsel.
  apply match_modes_error in Hsel as (n & m & ? & ? & ? & ?).
  by exists k, s, n, m.
Qed.

(** ** What the call returns and what it raises *)

Lemma success_follows fuel t modes start comps ths :
  GetComponentsFromGT fuel t modes start = Some (inr (comps, ths)) →
  ∃ rows s,
    follows t modes start rows s
    ∧ comps = components s ∧ ths = thcomponents s
    ∧ list_to_set modes = used_modes s
    ∧ (nodes_of t (innode s) = []
       ∨ stall_steps 0 (r_outnode <$> rows) = 4%nat).
Proof.
  intros H. apply GetComponentsFromGT_cases in H
    as [(e & ? & _)|(why & s & Hloop & Hfin)]; [done|].
  destruct (finish_cases modes s)
    as [[_ E]|[(_ & _ & E)|(Ho & Hused & E)]]; rewrite E in Hfin; try done.
  simplify_eq.
  destruct (loop_exit_follows _ _ _ _ _ _ Hloop Ho) as (rows & Hf & Hend).
  by exists rows, s.
Qed.

(** X1: the components returned are those of a chain of rows of the table
    that starts at the start node, each row a default row or one whose
    keyword is a token of [modes], none with a negative outnode; the
    thermal components are those of the same rows; the chain ends at a node
    without entry, or on the fourth repetition of an outnode. *)
Theorem returned_components_follow_a_path fuel t modes start comps ths :
  GetComponentsFromGT fuel t modes start = Some (inr (comps, ths)) →
  ∃ rows final,
    chain t modes start rows final
    ∧ Forall (λ r, (0 ≤ r_outnode r)%Z) rows
    ∧ comps = (λ r, Some (r_compname r)) <$> rows
    ∧ ths = (λ r, Some (r_thcompname r)) <$> rows
    ∧ (nodes_of t final = [] ∨ stall_steps 0 (r_outnode <$> rows) = 4%nat).
Proof.
  intros H.
  destruct (success_follows _ _ _ _ _ _ H)
    as (rows & s & (Hch & Hnn & Hco & Hth & _) & -> & -> & _ & Hend).
  by exists rows, (innode s).
Qed.

Lemma returned_components_follow_a_path_witness :
  ∃ rows final,
    chain (four_edges 4) ["acs "] 1 rows final
    ∧ Forall (λ r, (0 ≤ r_outnode r)%Z) rows
    ∧ [Some "B"; Some "D"] = (λ r, Some (r_compname r)) <$> rows
    ∧ [Some "b"; Some "d"] = (λ r, Some (r_thcompname r)) <$> rows
    ∧ (nodes_of (four_edges 4) final = []
       ∨ stall_steps 0 (r_outnode <$> rows) = 4%nat).
Proof.
  apply (returned_components_follow_a_path 3 (four_edges 4) ["acs "] 1).
  vm_compute. reflexivity.
Defined.

(** X2: when the call returns, every token of [modes] is the keyword of
    an edge that leaves the innode of one of the rows taken (not
    necessarily of the row taken there). *)
Theorem returned_only_if_every_mode_matched fuel t modes start comps ths :
  GetComponentsFromGT fuel t modes start = Some (inr (comps, ths)) →
  ∃ rows final,
    chain t modes start rows final
    ∧ comps = (λ r, Some (r_compname r)) <$> rows
    ∧ Forall (λ m, Exists (λ r, ∃ e, e ∈ t ∧ r_innode e = r_innode r
                                     ∧ matches (r_keyword e) m) rows) modes.
Proof.
  intros H.
  destruct (success_follows _ _ _ _ _ _ H)
    as (rows & s & (Hch & _ & Hco & _ & Hus & _) & -> & _ & Hall & _).
  exists rows, (innode s). split_and!; [done..|].
  apply Forall_forall. intros m Hm.
  assert (m ∈ matched_along t modes rows) as Hin.
  { rewrite <- Hus, <- Hall. by apply elem_of_list_to_set. }
  apply elem_of_matched_along in Hin as [_ Hex].
  eapply Exists_impl; [exact Hex|]. intros r Hr. simpl in Hr.
  unfold in_keywords in Hr. apply Exists_exists in Hr as (e & He & Hme).
  apply nodes_of_elem in He as [? ?]. by exists e.
Qed.

Lemma returned_only_if_every_mode_matched_witness :
  ∃ rows final,
    chain three_way ["acs"; "wfc1 "] 1 rows final
    ∧ [Some "C"] = (λ r, Some (r_compname r)) <$> rows
    ∧ Forall (λ m, Exists (λ r, ∃ e, e ∈ three_way ∧ r_innode e = r_innode r
                                     ∧ matches (r_keyword e) m) rows)
        ["acs"; "wfc1 "].
Proof.
  apply (returned_only_if_every_mode_matched 2 three_way ["acs"; "wfc1 "] 1
           _ [Some "c"]).
  vm_compute. reflexivity.
Defined.

(** X3: the 'unused keywords' error is raised only after a traversal that
    ended on an outnode that is not negative, and it carries exactly the
    tokens of [modes] that are the keyword of no edge leaving the innode of
    a row taken; there is at least one. *)
Theorem unused_keywords_are_unmatched fuel t modes start unused :
  GetComponentsFromGT fuel t modes start
  = Some (inl (ValueError_unused unused)) →
  ∃ rows final,
    chain t modes start rows final
    ∧ (nodes_of t final = [] ∨ stall_steps 0 (r_outnode <$> rows) = 4%nat)
    ∧ (∃ m, m ∈ unused)
    ∧ ∀ m, m ∈ unused
           ↔ m ∈ modes
             ∧ ¬ Exists (λ r, in_keywords (nodes_of t (r_innode r)) m)
                   rows.
Proof.
  intros H. apply GetComponentsFromGT_cases in H
    as [(e & He & Hloop)|(why & s & Hloop & Hfin)].
  { apply loop_raises_KeyError in Hloop as (? & ? & ? & ? & _ & _ & -> & _).
    done. }
  destruct (finish_cases modes s)
    as [[_ E]|[(Ho & Hne & E)|(_ & _ & E)]]; rewrite E in Hfin; try done.
  simplify_eq.
  destruct (loop_exit_follows _ _ _ _ _ _ Hloop Ho) as (rows & Hf & Hend).
  destruct Hf as (Hch & _ & _ & _ & Hus & _).
  assert (used_modes s ⊆ list_to_set modes) as Hsub.
  { apply (loop_used _ _ _ _ _ _ Hloop). simpl. set_solver. }
  exists rows, (innode s). split_and!; [done..| |].
  - apply set_choose_L. intros Hempty. apply Hne.
    apply set_eq. intros m. split; [|by apply Hsub].
    intros Hm. destruct (decide (m ∈ used_modes s)); [done|].
    assert (m ∈ list_to_set modes ∖ used_modes s) as Hx by set_solver.
    rewrite Hempty in Hx. set_solver.
  - intros m. rewrite elem_of_difference, Hus, elem_of_matched_along.
    rewrite elem_of_list_to_set. tauto.
Qed.

Lemma unused_keywords_are_unmatched_witness :
  ∃ rows final,
    chain (four_edges 4) ["acs "; "bogus"] 1 rows final
    ∧ (nodes_of (four_edges 4) final = []
       ∨ stall_steps 0 (r_outnode <$> rows) = 4%nat)
    ∧ (∃ m, m ∈@{gset string} {["bogus"]})
    ∧ ∀ m, m ∈@{gset string} {["bogus"]}
           ↔ m ∈ ["acs "; "bogus"]
             ∧ ¬ Exists (λ r, in_keywords
                                (nodes_of (four_edges 4) (r_innode r)) m)
                   rows.
Proof.
  apply (unused_keywords_are_unmatched 3 (four_edges 4) ["acs "; "bogus"] 1).
  vm_compute. reflexivity.
Defined.



(** X5: an edge with a negative outnode cannot be passed. At any node the
    traversal reaches, if the step selects a negative outnode, from a row of
    the table or for want of any row to take, the loop is left and the call
    raises the 'Incomplete obsmode' error, whatever the keywords used. *)
Theorem negative_outnode_raises k t modes start s sel used :
  iterate k t modes (initial start) = Some s →
  (0 ≤ outnode s)%Z →
  nodes_of t (innode s) ≠ [] →
  select t modes s = inr (sel, used) →
  (sel_outnode sel < 0)%Z →
  ∀ fuel, GetComponentsFromGT (k + (2 + fuel)) t modes start
          = Some (inl (ValueError_incomplete modes)).
Proof.
  intros Hk Ho Hne Hsel Hneg fuel. unfold GetComponentsFromGT.
  rewrite (loop_iterate _ _ _ _ _ _ Hk).
  change (2 + fuel)%nat with (S (S fuel)).
  cbn [loop]. rewrite decide_True by done.
  rewrite (body_select _ _ _ _ _ Hne Hsel).
  destruct (advance_fields s sel used) as (s' & Hadv & _ & Ho' & _).
  assert (advance s sel used = Continue s') as ->.
  { destruct Hadv as [Ha|Ha]; [done|]. exfalso.
    rewrite <- (body_select _ _ _ _ _ Hne Hsel) in Ha.
    apply body_break in Ha as [[? _]|(_ & Hsame & _)]; [done|]. lia. }
  rewrite decide_False by lia.
  unfold finish. by rewrite decide_True by lia.
Qed.

Lemma negative_outnode_raises_witness :
  GetComponentsFromGT (1 + (2 + 0)) (four_edges (-1)) ["acs"] 1
  = Some (inl (ValueError_incomplete ["acs"])).
Proof.
  refine (negative_outnode_raises 1 (four_edges (-1)) ["acs"] 1
            (mkState 3 3 0 {["acs"]} [Some "B"] [Some "b"])
            (of_row (mkRow "default" 3 (-1) "D" "d")) {["acs"]}
            _ _ _ _ _ 0%nat).
  - vm_compute. reflexivity.
  - simpl. lia.
  - vm_compute. discriminate.
  - vm_compute. reflexivity.
  - simpl. lia.
Defined.

(** X6: the 'Incomplete obsmode' error has one of two causes, at a node
    the traversal has reached along a chain of rows: a row of that node,
    default or carrying a token, has a negative outnode; or the node has
    entries, none of them default and none carrying a token. *)
Theorem incomplete_obsmode_cause fuel t modes start ms :
  GetComponentsFromGT fuel t modes start
  = Some (inl (ValueError_incomplete ms)) →
  ms = modes
  ∧ ∃ rows node,
      chain t modes start rows node
      ∧ nodes_of t node ≠ []
      ∧ ((∃ r, r ∈ nodes_of t node ∧ keeps modes r ∧ (r_outnode r < 0)%Z)
         ∨ ((¬ in_keywords (nodes_of t node) "default")
            ∧ Forall (λ m, ¬ in_keywords (nodes_of t node) m) modes)).
Proof.
  intros H. apply GetComponentsFromGT_cases in H
    as [(e' & [= <-] & Hloop)|(why & s & Hloop & Hfin)].
  { apply loop_raises_KeyError in Hloop as (? & ? & ? & ? & _ & _ & ? & _).
    done. }
  destruct (finish_cases modes s)
    as [[Hneg E]|[(_ & _ & E)|(_ & _ & E)]]; rewrite E in Hfin; simplify_eq.
  split; [done|].
  destruct (loop_decompose _ _ _ _ _ Hloop) as (k & s1 & Hk & Hres).
  destruct why.
  { destruct Hres as [Ho1 Hb]. apply body_break_no_entry in Hb as [-> _]. lia. }
  { destruct Hres as [Ho1 Hb].
    apply body_break in Hb as [[? _]|(_ & Hsame & _)]; [done|]. lia. }
  destruct Hres as [-> _]. destruct k as [|k].
  { simpl in Hk. simplify_eq. simpl in Hneg. lia. }
  apply iterate_last in Hk as (s0 & Hk & Ho0 & Hb).
  destruct (follows_iterate _ _ _ _ _ Hk Ho0) as (rows & (Hch & _) & _).
  apply body_continue_select in Hb as (Hne & sel & used & Hsel & Hout).
  exists rows, (innode s0). split_and!; [done..|].
  apply select_cases in Hsel as [_ [(-> & Hd & Hm)|(r & Hr & Hkeep & ->)]].
  - by right.
  - left. exists r. split_and!; [done..|]. simpl in Hout. lia.
Qed.

Lemma incomplete_obsmode_cause_witness :
  ["acs"] = ["acs"]
  ∧ ∃ rows node,
      chain (four_edges (-1)) ["acs"] 1 rows node
      ∧ nodes_of (four_edges (-1)) node ≠ []
      ∧ ((∃ r, r ∈ nodes_of (four_edges (-1)) node ∧ keeps ["acs"] r
               ∧ (r_outnode r < 0)%Z)
         ∨ ((¬ in_keywords (nodes_of (four_edges (-1)) node) "default")
            ∧ Forall (λ m, ¬ in_keywords (nodes_of (four_edges (-1)) node) m)
                ["acs"])).
Proof.
  apply (incomplete_obsmode_cause 3 (four_edges (-1)) ["acs"] 1).
  vm_compute. reflexivity.
Defined.

(** X7: when no row has the start node as innode (an empty table
    included), the loop is left at once: the call returns two empty lists
    if [modes] is empty, and otherwise raises the 'unused keywords' error
    carrying all of [modes]. *)
Theorem start_without_entry fuel t modes start :
  nodes_of t start = [] →
  GetComponentsFromGT (S fuel) t modes start
  = Some (if decide (modes = []) then inr ([], [])
          else inl (ValueError_unused (list_to_set modes))).
Proof.
  intros Hn. unfold GetComponentsFromGT. cbn [loop].
  rewrite decide_True by (simpl; lia).
  rewrite body_no_entry by done.
  unfold finish. simpl. f_equal.
  destruct (decide (modes = [])) as [->|Hm].
  - simpl. case_decide as E; [|done]. by destruct E.
  - rewrite decide_True.
    + f_equal. f_equal. set_solver.
    + intros E. destruct modes as [|m modes]; [done|].
      assert (m ∈@{gset string} ∅) as Hx by (rewrite <- E; set_solver).
      set_solver.
Qed.

Lemma start_without_entry_witness :
  GetComponentsFromGT 1 [] ["acs"] 1
  = Some (inl (ValueError_unused {["acs"]}))
  ∧ GetComponentsFromGT 1 (four_edges 4) [] 9 = Some (inr ([], [])).
Proof.
  split.
  - rewrite (start_without_entry 0 [] ["acs"] 1) by reflexivity.
    vm_compute. reflexivity.
  - rewrite (start_without_entry 0 (four_edges 4) [] 9)
      by (vm_compute; reflexivity).
    reflexivity.
Defined.

(** X8: with an empty [modes] the call never raises [KeyError] nor the
    'unused keywords' error: it raises 'Incomplete obsmode' or returns the
    components of a chain of default rows, that is, of rows whose keyword
    the table's comparison takes for 'default'. *)
Theorem no_modes_only_defaults fuel t start r :
  GetComponentsFromGT fuel t [] start = Some r →
  r = inl (ValueError_incomplete [])
  ∨ ∃ rows final,
      chain t [] start rows final
      ∧ Forall (λ row, matches (r_keyword row) "default") rows
      ∧ r = inr ((λ row, Some (r_compname row)) <$> rows,
                 (λ row, Some (r_thcompname row)) <$> rows).
Proof.
  intros H. destruct r as [e|[comps ths]].
  - left. apply GetComponentsFromGT_cases in H
      as [(e' & [= <-] & Hloop)|(why & s & Hloop & Hfin)].
    + apply loop_raises_KeyError in Hloop
        as (? & ? & ? & m & _ & _ & _ & Hm & _).
      by apply elem_of_nil in Hm.
    + destruct (finish_cases [] s)
        as [[_ E]|[(_ & Hne & E)|(_ & _ & E)]]; rewrite E in Hfin;
        simplify_eq; [done|].
      exfalso. apply Hne.
      assert (used_modes s ⊆ list_to_set []) as Hsub.
      { apply (loop_used _ _ _ _ _ _ Hloop). simpl. set_solver. }
      set_solver.
  - right.
    destruct (success_follows _ _ _ _ _ _ H)
      as (rows & s & (Hch & _ & Hco & Hth & _) & -> & -> & _).
    exists rows, (innode s). split_and!; [done| |by rewrite Hco, Hth].
    apply chain_rows in Hch. eapply Forall_impl; [exact Hch|].
    intros row [_ [Hd|Hin]]; [done|]. by apply Exists_nil in Hin.
Qed.

Example default_with_blanks :
  GetComponentsFromGT 2 [mkRow "default " 1 2 "A" "a"] [] 1
  = Some (inr ([Some "A"], [Some "a"])).
Proof. vm_compute. reflexivity. Qed.

Lemma no_modes_only_defaults_witness :
  inr ([Some "A"; Some "C"], [Some "a"; Some "c"])
  = inl (ValueError_incomplete [])
  ∨ ∃ rows final,
      chain (four_edges 4) [] 1 rows final
      ∧ Forall (λ row, matches (r_keyword row) "default") rows
      ∧ inr ([Some "A"; Some "C"], [Some "a"; Some "c"])
        =@{result} inr ((λ row, Some (r_compname row)) <$> rows,
                        (λ row, Some (r_thcompname row)) <$> rows).
Proof.
  apply (no_modes_only_defaults 3 (four_edges 4) 1).
  vm_compute. reflexivity.
Defined.

(** ** Self-loops *)

Lemma match_modes_used_indep nodes modes sel u1 u2 sel' u1' :
  match_modes nodes modes sel u1 = inr (sel', u1') →
  ∃ u2', match_modes nodes modes sel u2 = inr (sel', u2').
Proof.
  revert sel u1 u2. induction modes as [|mode rest IH]; intros sel u1 u2 H.
  - simpl in *. simplify_eq. by eexists.
  - simpl in *. case_decide; [|by eapply IH].
    case_decide; [done|].
    destruct (where_keyword nodes mode); [done|]. by eapply IH.
Qed.

Lemma select_same_node t modes s1 s2 sel used :
  innode s1 = innode s2 →
  select t modes s1 = inr (sel, used) →
  ∃ used', select t modes s2 = inr (sel, used').
Proof.
  unfold select. intros <- H. by eapply match_modes_used_indep.
Qed.

Lemma body_continue_aligned t modes s s' :
  body t modes s = Continue s' → innode s' = outnode s'.
Proof.
  unfold body. case_decide; [done|].
  destruct (select t modes s) as [e|[sel used]]; [done|].
  unfold advance. repeat case_decide; intros [= <-]; done.
Qed.

Lemma iterate_aligned k t modes s0 s :
  iterate (S k) t modes s0 = Some s →
  innode s = outnode s ∧ ((count s0 ≤ 3)%nat → (count s ≤ 3)%nat).
Proof.
  revert s. induction k as [|k IH]; intros s H.
  - apply iterate_last in H as (s1 & Hk & _ & Hb). simpl in Hk. simplify_eq.
    split; [by eapply body_continue_aligned|].
    by apply (body_continue _ _ _ _ Hb).
  - apply iterate_last in H as (s1 & Hk & _ & Hb).
    destruct (IH _ Hk) as [_ Hc].
    split; [by eapply body_continue_aligned|].
    intros Hc0. apply (body_continue _ _ _ _ Hb). by apply Hc.
Qed.

Lemma self_loop_runs t modes sel n :
  ∀ s used fuel,
    innode s = outnode s → (0 ≤ outnode s)%Z →
    nodes_of t (innode s) ≠ [] →
    select t modes s = inr (sel, used) →
    sel_outnode sel = innode s →
    (4 - count s = S n)%nat →
    ∃ s', loop (S n + fuel) t modes s = Some (inr (SameOutnode, s'))
          ∧ components s' = components s ++ replicate (S n) (sel_component sel)
          ∧ thcomponents s'
            = thcomponents s ++ replicate (S n) (sel_thcomponent sel)
          ∧ outnode s' = outnode s.
Proof.
  induction n as [|n IH]; intros s used fuel Hal Ho Hne Hsel Hself Hn.
  - cbn [Nat.add loop]. rewrite decide_True by done.
    rewrite (body_select _ _ _ _ _ Hne Hsel). unfold advance.
    rewrite decide_True by congruence.
    rewrite decide_True by lia.
    eexists. split; [done|]. simpl. split_and!; [done..|congruence].
  - cbn [Nat.add loop]. rewrite decide_True by done.
    rewrite (body_select _ _ _ _ _ Hne Hsel). unfold advance.
    rewrite decide_True by congruence.
    rewrite decide_False by lia.
    set (s2 := mkState _ _ _ _ _ _).
    assert (innode s2 = innode s) as Hi2 by (subst s2; simpl; done).
    assert (outnode s2 = innode s) as Ho2 by (subst s2; simpl; done).
    assert (count s2 = S (count s)) as Hc2 by (subst s2; simpl; done).
    destruct (select_same_node t modes s s2 sel used) as [used' Hsel'];
      [done..|].
    destruct (IH s2 used' fuel) as (s' & Hloop & Hc & Hth & Hout);
      [congruence|lia|by rewrite Hi2|done|congruence|lia|].
    exists s'. split; [done|]. rewrite Hc, Hth, Hout. subst s2. simpl.
    rewrite <- !app_assoc. simpl. split_and!; [done..|congruence].
Qed.

(** X9: a self-loop is repeated until the counter stops it. When, after
    at least one complete iteration, the step at the current node selects a
    row that points back to that node, the same row is taken again and again:
    its component is appended [4 - count] times, the loop is left through
    the guard of line 253, and the call does not raise the 'Incomplete
    obsmode' error. *)
Theorem self_loop_repeats k t modes start s sel used :
  iterate (S k) t modes (initial start) = Some s →
  (0 ≤ outnode s)%Z →
  select t modes s = inr (sel, used) →
  sel_outnode sel = innode s →
  ∀ fuel, ∃ s',
    loop (S k + (4 - count s + fuel)) t modes (initial start)
    = Some (inr (SameOutnode, s'))
    ∧ components s'
      = components s ++ replicate (4 - count s) (sel_component sel)
    ∧ thcomponents s'
      = thcomponents s ++ replicate (4 - count s) (sel_thcomponent sel)
    ∧ GetComponentsFromGT (S k + (4 - count s + fuel)) t modes start
      = Some (finish modes s')
    ∧ finish modes s' ≠ inl (ValueError_incomplete modes).
Proof.
  intros Hk Ho Hsel Hself fuel.
  destruct (iterate_aligned _ _ _ _ _ Hk) as [Hal Hc].
  assert (count s ≤ 3)%nat as Hc3 by (apply Hc; simpl; lia).
  assert (nodes_of t (innode s) ≠ []) as Hne.
  { intros E. unfold select in Hsel. rewrite E in Hsel.
    apply match_modes_cases in Hsel as [->|(r & Hr & _)].
    - unfold provisional in Hself. simpl in Hself. lia.
    - by apply elem_of_nil in Hr. }
  destruct (4 - count s)%nat as [|n] eqn:En; [lia|].
  destruct (self_loop_runs t modes sel n s used fuel)
    as (s' & Hloop & Hco & Hth & Hout); try done.
  exists s'.
  assert (loop (S k + (S n + fuel)) t modes (initial start)
          = Some (inr (SameOutnode, s'))) as Hfull.
  { by rewrite (loop_iterate _ _ _ _ _ _ Hk). }
  split_and!; [done..| |].
  - unfold GetComponentsFromGT. by rewrite Hfull.
  - unfold finish. rewrite decide_False by lia. by case_decide.
Qed.

Lemma self_loop_repeats_witness :
  ∃ s',
    loop (1 + (4 - 0 + 0)) self_loop [] (initial 1)
    = Some (inr (SameOutnode, s'))
    ∧ components s'
      = [Some "A"] ++ replicate (4 - 0) (Some "B")
    ∧ thcomponents s'
      = [Some "a"] ++ replicate (4 - 0) (Some "b")
    ∧ GetComponentsFromGT (1 + (4 - 0 + 0)) self_loop [] 1
      = Some (finish [] s')
    ∧ finish [] s' ≠ inl (ValueError_incomplete []).
Proof.
  refine (self_loop_repeats 0 self_loop [] 1
            (mkState 2 2 0 ∅ [Some "A"] [Some "a"])
            (of_row (mkRow "default" 2 2 "B" "b")) ∅ _ _ _ _ 0%nat).
  - vm_compute. reflexivity.
  - simpl. lia.
  - vm_compute. reflexivity.
  - reflexivity.
Defined.

(** * Further properties of the two constructors *)

(** ** GraphTable.__init__ *)

Lemma lower_ascii_not_upper c : ¬ is_upper (lower_ascii c).
Proof.
  unfold is_upper.
  destruct c as [[] [] [] [] [] [] [] []]; vm_compute; lia.
Qed.

Lemma lower_ascii_fixed c : ¬ is_upper c → lower_ascii c = c.
Proof.
  unfold is_upper.
  destruct c as [[] [] [] [] [] [] [] []]; vm_compute; intros H;
    first [reflexivity | exfalso; apply H; lia].
Qed.

Lemma lower_not_upper s :
  Forall (λ c, ¬ is_upper c) (list_ascii_of_string (lower s)).
Proof.
  induction s as [|c s IH]; simpl; constructor; [|done].
  apply lower_ascii_not_upper.
Qed.

Lemma lower_fixed s :
  Forall (λ c, ¬ is_upper c) (list_ascii_of_string s) → lower s = s.
Proof.
  induction s as [|c s IH]; simpl; [done|].
  intros H. apply Forall_cons in H as [Hc Hs].
  by rewrite lower_ascii_fixed, IH.
Qed.

Lemma lower_length s : String.length (lower s) = String.length s.
Proof. induction s as [|c s IH]; simpl; [done|]. by rewrite IH. Qed.

(** X10: construction lower-cases the keywords and nothing else. Without a
    file name it raises [TypeError]. With one, no keyword of the table
    contains an upper-case ASCII letter; each row keeps its innode, outnode
    and names and a keyword of the same length that equals the one in the
    file up to case; rows are neither added, dropped nor moved; a file
    already in lower case is taken as it is, and lower-casing the table
    again changes nothing. *)
Theorem GraphTable_init_lower_case GFile ext1 :
  GraphTable_init None ext1 = inl TypeError
  ∧ ∃ rows,
      GraphTable_init (Some GFile) ext1 = inr rows
      ∧ Forall (λ r, Forall (λ c, ¬ is_upper c)
                       (list_ascii_of_string (r_keyword r))) rows
      ∧ Forall2 (λ r r', same_up_to_case r r'
                         ∧ String.length (r_keyword r')
                           = String.length (r_keyword r)) ext1 rows
      ∧ (Forall (λ r, Forall (λ c, ¬ is_upper c)
                        (list_ascii_of_string (r_keyword r))) ext1 →
         rows = ext1)
      ∧ GraphTable_rows rows = rows.
Proof.
  split; [done|]. exists (GraphTable_rows ext1). split; [done|].
  unfold GraphTable_rows. split_and!.
  - apply Forall_fmap, Forall_true. intros r. simpl. apply lower_not_upper.
  - apply Forall2_fmap_r, Forall_Forall2_diag, Forall_true. intros r.
    simpl. split; [|apply lower_length].
    unfold same_up_to_case. simpl. by rewrite lower_idem.
  - intros H. induction H as [|r l Hr _ IH]; [done|].
    rewrite fmap_cons, IH. f_equal. destruct r. unfold lower_row. simpl in *.
    by rewrite lower_fixed.
  - rewrite <- list_fmap_compose. apply list_fmap_ext. intros _ r _.
    unfold lower_row. simpl. by rewrite lower_idem.
Qed.

(** ** CompTable.__init__ *)

Lemma filter_compname_unique (ext1 : list CompRow) r :
  NoDup (c_compname <$> ext1) → r ∈ ext1 →
  filter (λ r', c_compname r' = c_compname r) ext1 = [r].
Proof.
  induction ext1 as [|x l IH]; intros Hnd Hr.
  { by apply elem_of_nil in Hr. }
  rewrite fmap_cons in Hnd. apply NoDup_cons in Hnd as [Hx Hnd].
  assert (∀ y, y ∈ l → c_compname y ≠ c_compname x) as Hne.
  { intros y Hy E. apply Hx. rewrite <- E. apply list_elem_of_fmap.
    by exists y. }
  apply elem_of_cons in Hr as [->|Hr].
  - rewrite filter_cons_True by done. f_equal.
    clear IH Hx Hnd. induction l as [|y l IH]; [done|].
    rewrite filter_cons_False; [apply IH|apply Hne; by left].
    intros z Hz. apply Hne. by right.
  - rewrite filter_cons_False; [by apply IH|].
    intros E. by apply (Hne r).
Qed.

Lemma compdict_of_dom ext1 :
  dom (compdict_of ext1) =@{gset string} list_to_set (c_compname <$> ext1).
Proof.
  apply set_eq. intros name.
  rewrite elem_of_dom, compdict_of_lookup, elem_of_list_to_set.
  rewrite fmap_is_Some, last_is_Some, list_elem_of_fmap. split.
  - intros Hne.
    destruct (filter (λ r, c_compname r = name) ext1) as [|r l] eqn:E;
      [done|].
    assert (r ∈ filter (λ r, c_compname r = name) ext1) as Hr
      by (rewrite E; by left).
    apply (list_elem_of_filter (λ r, c_compname r = name)) in Hr
      as [<- Hr].
    by exists r.
  - intros (r & -> & Hr) E.
    assert (r ∈ filter (λ r', c_compname r' = c_compname r) ext1) as Hx
      by (by apply list_elem_of_filter).
    rewrite E in Hx. by apply elem_of_nil in Hx.
Qed.

Lemma compdict_of_snoc ext1 r :
  compdict_of (ext1 ++ [r])
  = <[c_compname r := c_filename r]> (compdict_of ext1).
Proof. unfold compdict_of. by rewrite foldl_snoc. Qed.

(** X11: the dictionary built by lines 49-51 has exactly the component
    names of the table as keys, every value is the file name of a row with
    that name, it has no more entries than the table has rows, and a later
    row with a name already seen replaces the earlier file name. *)
Theorem compdict_of_keys ext1 :
  dom (compdict_of ext1) = list_to_set (c_compname <$> ext1)
  ∧ (∀ name f, compdict_of ext1 !! name = Some f →
               mkCompRow name f ∈ ext1)
  ∧ (size (compdict_of ext1) ≤ length ext1)%nat
  ∧ (∀ r, compdict_of (ext1 ++ [r]) !! c_compname r = Some (c_filename r)).
Proof.
  split_and!.
  - apply compdict_of_dom.
  - intros name f. rewrite compdict_of_lookup. intros Hl.
    apply fmap_Some in Hl as (r & Hl & ->).
    apply last_Some_elem_of in Hl.
    apply (list_elem_of_filter (λ r, c_compname r = name)) in Hl as [<- Hr].
    by destruct r.
  - induction ext1 as [|r l IH] using rev_ind; [done|].
    rewrite compdict_of_snoc, map_size_insert, length_app. simpl.
    destruct (compdict_of l !! c_compname r); simpl; lia.
  - intros r. by rewrite compdict_of_snoc, lookup_insert_eq.
Qed.

(** X12: when the component names of the table are all different, the
    dictionary gives back, for every row, the file name of that row, and
    it has as many entries as the table has rows. *)
Theorem compdict_of_unique_names ext1 :
  NoDup (c_compname <$> ext1) →
  (∀ r, r ∈ ext1 → compdict_of ext1 !! c_compname r = Some (c_filename r))
  ∧ size (compdict_of ext1) = length ext1.
Proof.
  intros Hnd. split.
  - intros r Hr.
    rewrite compdict_of_lookup, filter_compname_unique by done. done.
  - rewrite <- size_dom, compdict_of_dom, size_list_to_set by done.
    by rewrite length_fmap.
Qed.

Lemma compdict_of_unique_names_witness :
  (∀ r, r ∈ [mkCompRow "A" "a.fits"; mkCompRow "B" "b.fits"] →
        compdict_of [mkCompRow "A" "a.fits"; mkCompRow "B" "b.fits"]
          !! c_compname r = Some (c_filename r))
  ∧ size (compdict_of [mkCompRow "A" "a.fits"; mkCompRow "B" "b.fits"])
    = 2%nat.
Proof.
  apply (compdict_of_unique_names
           [mkCompRow "A" "a.fits"; mkCompRow "B" "b.fits"]).
  simpl. repeat constructor.
  - intros H. apply list_elem_of_singleton in H. discriminate H.
  - apply not_elem_of_nil.
Defined.

(** * The order of the tokens *)

Lemma match_modes_one_token nodes modes sel used :
  (∀ m1 m2, m1 ∈ modes → m2 ∈ modes →
            in_keywords nodes m1 → in_keywords nodes m2 →
            m1 = m2) →
  match_modes nodes modes sel used
  = match filter (λ m, in_keywords nodes m) modes with
    | [] => inr (sel, used)
    | m :: _ =>
        if decide (1 < length (where_keyword nodes m))%nat
        then inl (KeyError (length (where_keyword nodes m)) m)
        else match where_keyword nodes m with
             | idx :: _ => inr (of_row idx, used ∪ {[m]})
             | [] => inl IndexError
             end
    end.
Proof.
  revert sel used. induction modes as [|mode rest IH]; intros sel used Hone;
    [done|].
  assert (∀ m1 m2, m1 ∈ rest → m2 ∈ rest →
            in_keywords nodes m1 → in_keywords nodes m2 →
            m1 = m2) as Hrest.
  { intros m1 m2 H1 H2. apply Hone; by right. }
  simpl. case_decide as Hin.
  - rewrite filter_cons_True by done.
    case_decide as Hlen; [done|].
    destruct (where_keyword nodes mode) as [|idx tl] eqn:E; [done|].
    rewrite IH by done.
    destruct (filter (λ m, in_keywords nodes m) rest) as [|m' l] eqn:Ef;
      [done|].
    assert (m' ∈ filter (λ m, in_keywords nodes m) rest) as Hm'
      by (rewrite Ef; by left).
    apply (list_elem_of_filter (λ m, in_keywords nodes m)) in Hm'
      as [Hm'in Hm'rest].
    assert (m' = mode) as ->.
    { apply Hone; [by right|by left|done..]. }
    rewrite E. rewrite decide_False by done.
    do 2 f_equal. set_solver.
  - rewrite filter_cons_False by done. by apply IH.
Qed.

Lemma match_modes_permutation nodes modes modes' sel used :
  modes ≡ₚ modes' →
  (∀ m1 m2, m1 ∈ modes → m2 ∈ modes →
            in_keywords nodes m1 → in_keywords nodes m2 →
            m1 = m2) →
  match_modes nodes modes sel used = match_modes nodes modes' sel used.
Proof.
  intros Hp Hone.
  assert (∀ m1 m2, m1 ∈ modes' → m2 ∈ modes' →
            in_keywords nodes m1 → in_keywords nodes m2 →
            m1 = m2) as Hone'.
  { intros m1 m2 H1 H2. apply Hone; by rewrite Hp. }
  rewrite !match_modes_one_token by done.
  assert (filter (λ m, in_keywords nodes m) modes
          ≡ₚ filter (λ m, in_keywords nodes m) modes') as Hpf
    by (by rewrite Hp).
  destruct (filter (λ m, in_keywords nodes m) modes) as [|m l] eqn:E;
    destruct (filter (λ m, in_keywords nodes m) modes')
      as [|m' l'] eqn:E'.
  - done.
  - by apply Permutation_nil_cons in Hpf.
  - symmetry in Hpf. by apply Permutation_nil_cons in Hpf.
  - assert (m ∈ filter (λ m, in_keywords nodes m) modes) as Hm
      by (rewrite E; by left).
    assert (m' ∈ filter (λ m, in_keywords nodes m) modes') as Hm'
      by (rewrite E'; by left).
    apply (list_elem_of_filter (λ m, in_keywords nodes m)) in Hm
      as [? ?].
    apply (list_elem_of_filter (λ m, in_keywords nodes m)) in Hm'
      as [? Hm'].
    rewrite <- Hp in Hm'. by rewrite (Hone m m').
Qed.

Lemma loop_permutation fuel t modes modes' s :
  modes ≡ₚ modes' → one_token_per_node t modes →
  loop fuel t modes s = loop fuel t modes' s.
Proof.
  intros Hp Hone. revert s. induction fuel as [|fuel IH]; intros s; [done|].
  assert (body t modes s = body t modes' s) as Hb.
  { unfold body, select.
    by rewrite (match_modes_permutation _ modes modes')
      by (done || apply Hone). }
  simpl. rewrite Hb. case_decide; [|done].
  destruct (body t modes' s); [apply IH|done..].
Qed.

(** X13: the order of the tokens matters only where two of them compete.
    If at every node at most one token of [modes] is the keyword of an edge
    leaving it, then listing the tokens in another order gives the same
    result: the same lists, or the same error, the 'Incomplete obsmode'
    error carrying the list as it was passed. *)
Theorem mode_order_irrelevant fuel t modes modes' start :
  modes ≡ₚ modes' → one_token_per_node t modes →
  GetComponentsFromGT fuel t modes' start
  = with_modes modes' (GetComponentsFromGT fuel t modes start).
Proof.
  intros Hp Hone. unfold GetComponentsFromGT.
  rewrite <- (loop_permutation fuel t modes modes') by done.
  destruct (loop fuel t modes (initial start)) as [[e|[why s]]|] eqn:Hloop;
    [|unfold with_modes|done].
  - apply loop_raises_KeyError in Hloop as (? & ? & ? & ? & _ & _ & -> & _).
    done.
  - unfold finish. rewrite <- (list_to_set_perm_L modes modes') by done.
    case_decide; [done|]. by case_decide.
Qed.

Lemma mode_order_irrelevant_witness :
  GetComponentsFromGT 3 (four_edges 4) ["bogus"; "acs"] 1
  = with_modes ["bogus"; "acs"]
      (GetComponentsFromGT 3 (four_edges 4) ["acs"; "bogus"] 1).
Proof.
  apply (mode_order_irrelevant 3 (four_edges 4) ["acs"; "bogus"]
           ["bogus"; "acs"] 1).
  - apply perm_swap.
  - intros n m1 m2 H1 H2 Hk1 Hk2.
    assert (∀ m, m ∈ ["acs"; "bogus"] →
                 in_keywords (nodes_of (four_edges 4) n) m →
                 m = "acs") as Hacs.
    { intros m Hm Hk. apply elem_of_cons in Hm. destruct Hm as [->|Hm];
        [done|].
      apply list_elem_of_singleton in Hm. subst m. exfalso.
      unfold in_keywords in Hk. apply Exists_exists in Hk as (r & Hin & Hr).
      apply nodes_of_elem in Hin as [_ Hin].
      assert (Forall (λ r, ¬ matches (r_keyword r) "bogus") (four_edges 4))
        as Hall by by_evaluation.
      by apply (proj1 (Forall_forall _ _) Hall r Hin). }
    by rewrite (Hacs m1), (Hacs m2).
Defined.
